(** * EasyDict: word-analysis pipeline and lookup orchestration

    A shallow embedding of [src/js/audio-player.js] (the word-root
    analyzer [analyzeWordRoot] and its morpheme tables) and of
    [src/js/dictionary-service.js] ([fetchEnglishDefinition],
    [fetchChineseTranslation], [lookupWord], [generatePotentialForms],
    [getWordFormInfo], [verifyWordForm], [fetchWordFamily], the entry
    helpers, [fetchEnglishTranslation], [lookupChineseWord], [isChinese]),
    of the [AudioPlayer] class of [src/js/audio-player.js], and of the
    search box and search history of [src/app.js].

    JavaScript strings are modelled as lists of ASCII characters (UTF-8
    bytes for the Chinese glosses); [toLowerCase] and [trim] are their ASCII
    restrictions.  Network access is an explicit provider record that maps a
    request to an HTTP outcome; promises that reject become [Err] values of
    the [result] type, and [try]/[catch] blocks that swallow errors become
    total functions. *)

From Stdlib Require Import String Ascii List Bool Arith Lia ZArith Sorting Permutation.
Import ListNotations.
Open Scope list_scope.

(** ** JavaScript string primitives *)

Definition str := list ascii.

(** String literals of the source. *)
Definition js (s : string) : str := list_ascii_of_string s.

Definition ascii_eqb (a b : ascii) : bool := if ascii_dec a b then true else false.

Fixpoint str_eqb (s t : str) : bool :=
  match s, t with
  | [], [] => true
  | a :: s', b :: t' => ascii_eqb a b && str_eqb s' t'
  | _, _ => false
  end.

Definition is_nil {A} (l : list A) : bool :=
  match l with [] => true | _ => false end.

(** [String.prototype.toLowerCase] on ASCII. *)
Definition to_lower_char (c : ascii) : ascii :=
  let n := nat_of_ascii c in
  if (65 <=? n) && (n <=? 90) then ascii_of_nat (n + 32) else c.

Definition toLowerCase (s : str) : str := map to_lower_char s.

(** [String.prototype.trim]: strips ASCII white space at both ends. *)
Definition is_ws (c : ascii) : bool :=
  let n := nat_of_ascii c in
  (n =? 32) || ((9 <=? n) && (n <=? 13)).

Fixpoint trim_start (s : str) : str :=
  match s with
  | [] => []
  | c :: s' => if is_ws c then trim_start s' else s
  end.

Definition trim (s : str) : str := rev (trim_start (rev (trim_start s))).

(** [s.startsWith(p)] *)
Fixpoint starts_with (p s : str) : bool :=
  match p, s with
  | [], _ => true
  | a :: p', b :: s' => ascii_eqb a b && starts_with p' s'
  | _ :: _, [] => false
  end.

(** [s.endsWith(p)] *)
Definition ends_with (p s : str) : bool := starts_with (rev p) (rev s).

(** [s.includes(p)] *)
Fixpoint includes (p s : str) : bool :=
  starts_with p s ||
  match s with
  | [] => false
  | _ :: s' => includes p s'
  end.

(** [s.slice(0, -k)] for [k > 0] *)
Definition slice_drop_end (k : nat) (s : str) : str := firstn (length s - k) s.

(** [Set.prototype.has] / [Array.prototype.includes] on strings. *)
Definition mem (x : str) (l : list str) : bool := existsb (str_eqb x) l.

(** ** Word Root Analyzer (audio-player.js, 122-921) *)

Record morpheme := mk_morpheme {
  pattern : str;
  meaning : str;
  chinese : str
}.

(** A table entry [{ pattern, meaning, chinese }] as written in the source. *)
Definition entry (p m c : string) : morpheme :=
  {| pattern := js p; meaning := js m; chinese := js c |}.

(** Prefix table [prefixes] of word-root-analyzer (audio-player.js, 134-259). *)
Definition prefixes : list morpheme := [
  entry "un" "not, opposite" "不，相反";
  entry "dis" "not, opposite, apart" "不，相反，分开";
  entry "in" "not, into" "不，进入";
  entry "im" "not, into" "不，进入";
  entry "il" "not" "不";
  entry "ir" "not" "不";
  entry "non" "not" "非，不";
  entry "mis" "wrong, badly" "错误地";
  entry "mal" "bad, wrong" "坏，错误";
  entry "anti" "against, opposite" "反对，抗";
  entry "contra" "against" "反对";
  entry "counter" "against, opposite" "反对，相反";
  entry "ab" "away from" "离开";
  entry "ad" "to, toward" "向，朝";
  entry "circum" "around" "围绕";
  entry "com" "with, together" "共同，一起";
  entry "con" "with, together" "共同，一起";
  entry "col" "with, together" "共同，一起";
  entry "cor" "with, together" "共同，一起";
  entry "co" "with, together" "共同，一起";
  entry "de" "down, away, remove" "向下，去除";
  entry "dia" "through, across" "穿过";
  entry "ex" "out, former" "出，前";
  entry "extra" "beyond, outside" "超出，外";
  entry "infra" "below" "在…下";
  entry "inter" "between, among" "在…之间";
  entry "intra" "within" "在…内";
  entry "intro" "into, inward" "向内";
  entry "ob" "against, toward" "反对，朝向";
  entry "para" "beside, beyond" "旁边，超越";
  entry "per" "through, thorough" "穿过，彻底";
  entry "peri" "around" "围绕";
  entry "post" "after" "在…之后";
  entry "pre" "before" "在…之前";
  entry "pro" "forward, for, before" "向前，支持";
  entry "re" "again, back" "再，重新";
  entry "retro" "backward" "向后";
  entry "se" "apart, away" "分开";
  entry "sub" "under, below" "在…下";
  entry "suc" "under" "在…下";
  entry "suf" "under" "在…下";
  entry "sup" "under" "在…下";
  entry "sus" "under" "在…下";
  entry "super" "above, beyond" "超级，在…上";
  entry "supra" "above" "在…上";
  entry "sur" "over, above" "在…上";
  entry "syn" "together, with" "共同";
  entry "sym" "together, with" "共同";
  entry "trans" "across, beyond" "跨越，穿过";
  entry "ultra" "beyond, extreme" "超越，极端";
  entry "hyper" "over, excessive" "过度，超";
  entry "hypo" "under, below" "低于，不足";
  entry "macro" "large" "大，宏观";
  entry "mega" "large, million" "大，百万";
  entry "micro" "small" "小，微";
  entry "mini" "small" "小，迷你";
  entry "out" "beyond, more" "超过，在外";
  entry "over" "too much, above" "过度，在…上";
  entry "under" "below, insufficient" "在…下，不足";
  entry "uni" "one" "单一";
  entry "mono" "one, single" "单一";
  entry "bi" "two" "双，二";
  entry "di" "two" "双，二";
  entry "tri" "three" "三";
  entry "quad" "four" "四";
  entry "quart" "four" "四";
  entry "pent" "five" "五";
  entry "quint" "five" "五";
  entry "hex" "six" "六";
  entry "hept" "seven" "七";
  entry "sept" "seven" "七";
  entry "oct" "eight" "八";
  entry "nov" "nine" "九";
  entry "dec" "ten" "十";
  entry "cent" "hundred" "百";
  entry "kilo" "thousand" "千";
  entry "milli" "thousand, thousandth" "千，千分之一";
  entry "semi" "half" "半";
  entry "hemi" "half" "半";
  entry "demi" "half" "半";
  entry "multi" "many" "多";
  entry "poly" "many" "多";
  entry "auto" "self" "自动，自己";
  entry "bene" "good, well" "好";
  entry "bio" "life" "生命";
  entry "chrono" "time" "时间";
  entry "cyber" "computer" "网络，计算机";
  entry "eco" "environment" "生态，环境";
  entry "electro" "electric" "电";
  entry "geo" "earth" "地球";
  entry "hetero" "different" "不同";
  entry "homo" "same" "相同";
  entry "hydro" "water" "水";
  entry "neo" "new" "新";
  entry "neuro" "nerve" "神经";
  entry "pan" "all" "全，泛";
  entry "phil" "love" "爱";
  entry "philo" "love" "爱";
  entry "photo" "light" "光";
  entry "pseudo" "false" "假，伪";
  entry "psycho" "mind" "心理";
  entry "socio" "society" "社会";
  entry "techno" "technology" "技术";
  entry "tele" "far, distant" "远";
  entry "thermo" "heat" "热";
  entry "vice" "deputy" "副";
  entry "ante" "before" "在…之前";
  entry "fore" "before, front" "在…前";
  entry "mid" "middle" "中间";
  entry "eu" "good, well" "好";
  entry "dys" "bad, difficult" "坏，困难"
].

(** Root table [roots] (audio-player.js, 262-724). *)
Definition roots : list morpheme := [
  entry "act" "do, drive" "做，驱动";
  entry "ag" "do, act" "做，行动";
  entry "agr" "field, farm" "田地，农业";
  entry "ali" "other" "其他";
  entry "alter" "other, change" "其他，改变";
  entry "am" "love" "爱";
  entry "anim" "life, spirit" "生命，精神";
  entry "ann" "year" "年";
  entry "enn" "year" "年";
  entry "anth" "flower" "花";
  entry "anthrop" "human" "人类";
  entry "apt" "fit" "适合";
  entry "aqu" "water" "水";
  entry "arch" "chief, rule" "首领，统治";
  entry "art" "skill" "技艺";
  entry "aster" "star" "星";
  entry "astr" "star" "星";
  entry "aud" "hear" "听";
  entry "aug" "increase" "增加";
  entry "bar" "weight, pressure" "重量，压力";
  entry "bas" "low, base" "低，基础";
  entry "bell" "war" "战争";
  entry "bibl" "book" "书";
  entry "bio" "life" "生命";
  entry "brev" "short" "短";
  entry "cad" "fall" "落下";
  entry "cas" "fall" "落下";
  entry "cid" "fall" "落下";
  entry "cap" "head" "头";
  entry "capit" "head" "头";
  entry "capt" "take, seize" "拿，抓";
  entry "cept" "take, seize" "拿，抓";
  entry "ceiv" "take, seize" "拿，抓";
  entry "cip" "take, seize" "拿，抓";
  entry "carn" "flesh" "肉";
  entry "ced" "go, yield" "走，让步";
  entry "ceed" "go, yield" "走，让步";
  entry "cess" "go, yield" "走，让步";
  entry "centr" "center" "中心";
  entry "cert" "sure" "确定";
  entry "chron" "time" "时间";
  entry "cide" "kill, cut" "杀，切";
  entry "cis" "cut" "切";
  entry "cit" "call, arouse" "叫，唤起";
  entry "civ" "citizen" "公民";
  entry "claim" "cry out" "喊叫";
  entry "clam" "cry out" "喊叫";
  entry "clar" "clear" "清楚";
  entry "clin" "lean, bend" "倾斜";
  entry "clos" "close" "关闭";
  entry "clud" "close" "关闭";
  entry "clus" "close" "关闭";
  entry "cogn" "know" "知道";
  entry "cord" "heart" "心";
  entry "corp" "body" "身体";
  entry "cosm" "universe, order" "宇宙，秩序";
  entry "crat" "rule, power" "统治，权力";
  entry "cre" "create, grow" "创造，生长";
  entry "creat" "create" "创造";
  entry "cred" "believe, trust" "相信，信任";
  entry "cresc" "grow" "生长";
  entry "crit" "judge" "判断";
  entry "crypt" "hidden" "隐藏";
  entry "cult" "care, grow" "培养，种植";
  entry "cur" "care" "关心";
  entry "cure" "care" "关心";
  entry "curs" "run" "跑";
  entry "curr" "run" "跑";
  entry "cours" "run" "跑";
  entry "cycl" "circle" "圆，循环";
  entry "dec" "ten" "十";
  entry "dem" "people" "人民";
  entry "dent" "tooth" "牙齿";
  entry "derm" "skin" "皮肤";
  entry "dic" "say, speak" "说";
  entry "dict" "say, speak" "说";
  entry "dign" "worthy" "值得";
  entry "doc" "teach" "教";
  entry "doct" "teach" "教";
  entry "dom" "house, control" "房屋，控制";
  entry "don" "give" "给";
  entry "donat" "give" "给";
  entry "dorm" "sleep" "睡";
  entry "dox" "opinion, belief" "观点，信仰";
  entry "draw" "pull" "拉";
  entry "du" "two" "二";
  entry "duc" "lead" "引导";
  entry "duct" "lead" "引导";
  entry "dur" "hard, lasting" "硬，持久";
  entry "dyn" "power" "力量";
  entry "dynam" "power" "力量";
  entry "equ" "equal" "相等";
  entry "erg" "work" "工作";
  entry "err" "wander, mistake" "漫游，错误";
  entry "ev" "age, time" "时代";
  entry "fab" "speak" "说";
  entry "fac" "make, do" "做，制造";
  entry "fact" "make, do" "做，制造";
  entry "fect" "make, do" "做，制造";
  entry "fic" "make, do" "做，制造";
  entry "fall" "deceive" "欺骗";
  entry "fals" "deceive" "欺骗";
  entry "fam" "fame, report" "名声";
  entry "fer" "carry, bring" "带，携带";
  entry "fid" "faith, trust" "信任";
  entry "fig" "shape, form" "形状";
  entry "fin" "end, limit" "结束，限制";
  entry "firm" "strong" "坚固";
  entry "fix" "fasten" "固定";
  entry "flam" "burn" "燃烧";
  entry "flect" "bend" "弯曲";
  entry "flex" "bend" "弯曲";
  entry "flict" "strike" "打击";
  entry "flor" "flower" "花";
  entry "flu" "flow" "流";
  entry "flux" "flow" "流";
  entry "form" "shape" "形状";
  entry "fort" "strong" "强壮";
  entry "forc" "strong" "强壮";
  entry "frag" "break" "打破";
  entry "fract" "break" "打破";
  entry "fug" "flee" "逃";
  entry "funct" "perform" "执行";
  entry "fund" "base, bottom" "基础，底部";
  entry "fus" "pour, melt" "倾倒，融化";
  entry "gam" "marriage" "婚姻";
  entry "gen" "birth, produce" "出生，产生";
  entry "ger" "carry" "携带";
  entry "gest" "carry" "携带";
  entry "gnos" "know" "知道";
  entry "grad" "step, degree" "步，程度";
  entry "gress" "step, go" "步，走";
  entry "gram" "write, letter" "写，字母";
  entry "graph" "write" "写";
  entry "grat" "pleasing" "令人愉快";
  entry "grav" "heavy" "重";
  entry "greg" "flock, group" "群";
  entry "gyn" "woman" "女人";
  entry "hab" "have, hold" "有，持有";
  entry "habit" "have, live" "有，居住";
  entry "hap" "luck, chance" "运气";
  entry "heli" "sun" "太阳";
  entry "hem" "blood" "血";
  entry "her" "heir" "继承人";
  entry "hes" "stick" "粘";
  entry "hibit" "hold, have" "持有";
  entry "hom" "man, human" "人";
  entry "hor" "hour" "小时";
  entry "hum" "earth, ground" "土地";
  entry "human" "human" "人类";
  entry "ident" "same" "相同";
  entry "ign" "fire" "火";
  entry "imag" "likeness" "相似";
  entry "init" "begin" "开始";
  entry "integr" "whole" "完整";
  entry "it" "go" "走";
  entry "ject" "throw" "投，扔";
  entry "join" "join" "连接";
  entry "junct" "join" "连接";
  entry "jud" "judge" "判断";
  entry "judic" "judge" "判断";
  entry "jur" "swear, law" "发誓，法律";
  entry "jus" "law, right" "法律，权利";
  entry "just" "law, right" "法律，正义";
  entry "juven" "young" "年轻";
  entry "labor" "work" "工作";
  entry "lat" "carry, bear" "携带";
  entry "later" "side" "侧面";
  entry "lav" "wash" "洗";
  entry "lect" "choose, read" "选择，读";
  entry "leg" "law, read" "法律，读";
  entry "lev" "light, rise" "轻，升起";
  entry "liber" "free" "自由";
  entry "libr" "book" "书";
  entry "lic" "permit" "允许";
  entry "lig" "bind" "绑";
  entry "lim" "limit" "限制";
  entry "lin" "line" "线";
  entry "lingu" "language, tongue" "语言，舌头";
  entry "lit" "letter" "文字";
  entry "liter" "letter" "文字";
  entry "loc" "place" "地方";
  entry "log" "word, study, reason" "词，学科，理性";
  entry "loqu" "speak" "说";
  entry "luc" "light" "光";
  entry "lud" "play" "玩";
  entry "lus" "play" "玩";
  entry "lum" "light" "光";
  entry "lumin" "light" "光";
  entry "magn" "great" "大";
  entry "maj" "greater" "更大";
  entry "man" "hand" "手";
  entry "manu" "hand" "手";
  entry "mand" "order" "命令";
  entry "mar" "sea" "海";
  entry "mater" "mother" "母亲";
  entry "matr" "mother" "母亲";
  entry "medi" "middle" "中间";
  entry "med" "heal" "治愈";
  entry "mem" "remember" "记忆";
  entry "memor" "remember" "记忆";
  entry "ment" "mind" "思想";
  entry "merc" "trade" "贸易";
  entry "merg" "dip, plunge" "浸入";
  entry "mers" "dip, plunge" "浸入";
  entry "meter" "measure" "测量";
  entry "metr" "measure" "测量";
  entry "migr" "move" "迁移";
  entry "min" "small, less" "小，少";
  entry "mir" "wonder" "惊奇";
  entry "mis" "send" "发送";
  entry "miss" "send" "发送";
  entry "mit" "send" "发送";
  entry "mob" "move" "移动";
  entry "mod" "manner, measure" "方式，测量";
  entry "mon" "warn, remind" "警告，提醒";
  entry "monstr" "show" "显示";
  entry "mor" "custom, manner" "习俗，方式";
  entry "morph" "form, shape" "形状";
  entry "mort" "death" "死亡";
  entry "mot" "move" "移动";
  entry "mov" "move" "移动";
  entry "mun" "service, gift" "服务，礼物";
  entry "mut" "change" "改变";
  entry "nasc" "born" "出生";
  entry "nat" "born" "出生";
  entry "nav" "ship" "船";
  entry "nect" "bind" "绑";
  entry "neg" "deny" "否认";
  entry "neur" "nerve" "神经";
  entry "noc" "harm" "伤害";
  entry "nox" "harm" "伤害";
  entry "nom" "name, law" "名字，法则";
  entry "nomin" "name" "名字";
  entry "norm" "rule" "规则";
  entry "not" "know, mark" "知道，标记";
  entry "noun" "declare" "宣布";
  entry "nounce" "declare" "宣布";
  entry "nov" "new" "新";
  entry "numer" "number" "数字";
  entry "nutr" "nourish" "滋养";
  entry "oct" "eight" "八";
  entry "ocul" "eye" "眼睛";
  entry "oper" "work" "工作";
  entry "opt" "best, choose" "最好，选择";
  entry "ora" "speak, pray" "说，祈祷";
  entry "ord" "order" "顺序";
  entry "organ" "tool, organ" "工具，器官";
  entry "ori" "rise" "升起";
  entry "orn" "decorate" "装饰";
  entry "pac" "peace" "和平";
  entry "par" "equal" "相等";
  entry "part" "part" "部分";
  entry "pass" "feel, suffer" "感受，遭受";
  entry "path" "feeling, disease" "感情，疾病";
  entry "patr" "father" "父亲";
  entry "pater" "father" "父亲";
  entry "ped" "foot, child" "脚，儿童";
  entry "pel" "drive, push" "驱动，推";
  entry "puls" "drive, push" "驱动，推";
  entry "pen" "punish" "惩罚";
  entry "pend" "hang, weigh" "悬挂，称重";
  entry "pens" "hang, weigh" "悬挂，称重";
  entry "pet" "seek" "寻求";
  entry "phas" "show" "显示";
  entry "phen" "show" "显示";
  entry "phil" "love" "爱";
  entry "phob" "fear" "恐惧";
  entry "phon" "sound" "声音";
  entry "phor" "carry" "携带";
  entry "photo" "light" "光";
  entry "phys" "nature, body" "自然，身体";
  entry "plac" "please" "取悦";
  entry "plan" "flat" "平的";
  entry "plas" "form, mold" "形成，塑造";
  entry "ple" "fill" "填充";
  entry "plen" "full" "满";
  entry "plex" "fold" "折叠";
  entry "plic" "fold" "折叠";
  entry "ply" "fold" "折叠";
  entry "pod" "foot" "脚";
  entry "poli" "city, citizen" "城市，公民";
  entry "polit" "citizen" "公民";
  entry "pon" "place, put" "放置";
  entry "pos" "place, put" "放置";
  entry "posit" "place, put" "放置";
  entry "pot" "power" "力量";
  entry "poten" "power" "力量";
  entry "prec" "price" "价格";
  entry "press" "press" "压";
  entry "prim" "first" "第一";
  entry "prin" "first" "第一";
  entry "priv" "separate" "分开";
  entry "prob" "prove, test" "证明，测试";
  entry "prov" "prove, test" "证明，测试";
  entry "proto" "first" "第一";
  entry "psych" "mind, soul" "心理，灵魂";
  entry "punct" "point" "点";
  entry "pur" "pure" "纯净";
  entry "put" "think" "思考";
  entry "quer" "ask, seek" "问，寻求";
  entry "quest" "ask, seek" "问，寻求";
  entry "quir" "ask, seek" "问，寻求";
  entry "quiet" "rest" "安静";
  entry "radi" "ray, spoke" "光线，辐射";
  entry "rat" "think, reason" "思考，理性";
  entry "real" "thing" "事物";
  entry "rect" "right, straight" "正确，直";
  entry "reg" "rule, king" "统治，王";
  entry "rog" "ask" "问";
  entry "rupt" "break" "打破";
  entry "sacr" "holy" "神圣";
  entry "sanct" "holy" "神圣";
  entry "san" "health" "健康";
  entry "sat" "enough" "足够";
  entry "sci" "know" "知道";
  entry "scop" "see, watch" "看，观察";
  entry "scrib" "write" "写";
  entry "script" "write" "写";
  entry "sec" "cut" "切";
  entry "sect" "cut" "切";
  entry "secu" "follow" "跟随";
  entry "sequ" "follow" "跟随";
  entry "sed" "sit, settle" "坐，安顿";
  entry "sess" "sit" "坐";
  entry "sid" "sit" "坐";
  entry "sen" "old" "老";
  entry "sens" "feel" "感觉";
  entry "sent" "feel" "感觉";
  entry "sert" "join" "连接";
  entry "serv" "serve, keep" "服务，保持";
  entry "sign" "mark" "标记";
  entry "simil" "like" "相似";
  entry "simul" "like" "相似";
  entry "sist" "stand" "站立";
  entry "soci" "companion" "同伴";
  entry "sol" "alone, sun" "单独，太阳";
  entry "solv" "loosen" "解开";
  entry "solut" "loosen" "解开";
  entry "somn" "sleep" "睡眠";
  entry "son" "sound" "声音";
  entry "soph" "wise" "智慧";
  entry "spec" "look, see" "看";
  entry "spect" "look, see" "看";
  entry "spir" "breathe" "呼吸";
  entry "spond" "promise" "承诺";
  entry "spons" "promise" "承诺";
  entry "sta" "stand" "站立";
  entry "stat" "stand" "站立";
  entry "strain" "draw tight" "拉紧";
  entry "strict" "draw tight" "拉紧";
  entry "struct" "build" "建造";
  entry "stud" "eager" "热心";
  entry "sum" "take, highest" "拿，最高";
  entry "tac" "silent" "沉默";
  entry "tact" "touch" "触摸";
  entry "tag" "touch" "触摸";
  entry "tang" "touch" "触摸";
  entry "tain" "hold" "保持";
  entry "ten" "hold" "保持";
  entry "tin" "hold" "保持";
  entry "techn" "skill" "技术";
  entry "tect" "cover" "覆盖";
  entry "tele" "far" "远";
  entry "tempor" "time" "时间";
  entry "tend" "stretch" "伸展";
  entry "tens" "stretch" "伸展";
  entry "tent" "stretch" "伸展";
  entry "term" "end, limit" "结束，限制";
  entry "termin" "end, limit" "结束，限制";
  entry "terr" "earth, land" "地，土地";
  entry "test" "witness" "见证";
  entry "text" "weave" "编织";
  entry "the" "god" "神";
  entry "theo" "god" "神";
  entry "therm" "heat" "热";
  entry "thes" "put, place" "放置";
  entry "tom" "cut" "切";
  entry "ton" "tone, sound" "音调，声音";
  entry "tor" "twist" "扭";
  entry "tort" "twist" "扭";
  entry "tox" "poison" "毒";
  entry "tract" "pull, drag" "拉，拖";
  entry "trib" "give" "给";
  entry "trud" "push" "推";
  entry "trus" "push" "推";
  entry "turb" "disturb" "扰乱";
  entry "typ" "type" "类型";
  entry "ultim" "last" "最后";
  entry "umbr" "shadow" "阴影";
  entry "un" "one" "一";
  entry "und" "wave" "波浪";
  entry "uni" "one" "一";
  entry "urb" "city" "城市";
  entry "us" "use" "使用";
  entry "ut" "use" "使用";
  entry "util" "use" "使用";
  entry "vac" "empty" "空";
  entry "vad" "go" "走";
  entry "val" "strong, worth" "强壮，价值";
  entry "valu" "worth" "价值";
  entry "var" "change" "改变";
  entry "vari" "change" "改变";
  entry "ven" "come" "来";
  entry "vent" "come" "来";
  entry "ver" "true" "真实";
  entry "verb" "word" "词";
  entry "verg" "turn" "转";
  entry "vers" "turn" "转";
  entry "vert" "turn" "转";
  entry "vest" "clothe" "穿衣";
  entry "vi" "way" "道路";
  entry "via" "way" "道路";
  entry "vid" "see" "看";
  entry "vis" "see" "看";
  entry "view" "see" "看";
  entry "vict" "conquer" "征服";
  entry "vinc" "conquer" "征服";
  entry "vir" "man" "男人";
  entry "vit" "life" "生命";
  entry "viv" "live" "活";
  entry "voc" "voice, call" "声音，叫";
  entry "vok" "call" "叫";
  entry "vol" "will, wish" "意愿";
  entry "volv" "roll" "滚动";
  entry "vor" "eat" "吃";
  entry "vot" "vow" "发誓";
  entry "zo" "animal" "动物"
].

(** Suffix table [suffixes] (audio-player.js, 727-824). *)
Definition suffixes : list morpheme := [
  entry "er" "one who" "…的人";
  entry "or" "one who" "…的人";
  entry "ar" "one who" "…的人";
  entry "ist" "one who practices" "…者";
  entry "ian" "one who" "…人";
  entry "ant" "one who" "…的人";
  entry "ent" "one who" "…的人";
  entry "ee" "one who receives" "被…的人";
  entry "eer" "one who" "…者";
  entry "ess" "female" "女性";
  entry "ster" "one who" "…者";
  entry "tion" "act, state" "…行为，状态";
  entry "sion" "act, state" "…行为，状态";
  entry "ation" "act, process" "…行为";
  entry "ition" "act, state" "…行为，状态";
  entry "ment" "act, state" "…行为";
  entry "ness" "state, quality" "…状态";
  entry "ity" "state, quality" "…性";
  entry "ty" "state, quality" "…性";
  entry "ance" "state, quality" "…状态";
  entry "ence" "state, quality" "…状态";
  entry "ancy" "state, quality" "…状态";
  entry "ency" "state, quality" "…状态";
  entry "dom" "state, realm" "…状态，领域";
  entry "hood" "state, condition" "…状态";
  entry "ship" "state, skill" "…状态，技能";
  entry "ism" "belief, practice" "…主义";
  entry "ure" "act, process" "…行为";
  entry "age" "action, result" "…行为，结果";
  entry "ery" "place, practice" "…场所";
  entry "ry" "place, practice" "…场所";
  entry "cy" "state, quality" "…状态";
  entry "th" "state" "…状态";
  entry "able" "capable of" "能够…的";
  entry "ible" "capable of" "能够…的";
  entry "al" "relating to" "…的";
  entry "ial" "relating to" "…的";
  entry "ical" "relating to" "…的";
  entry "ful" "full of" "充满…的";
  entry "less" "without" "没有…的";
  entry "ous" "full of" "…的";
  entry "ious" "full of" "…的";
  entry "eous" "full of" "…的";
  entry "ive" "tending to" "…的";
  entry "ative" "tending to" "…的";
  entry "itive" "tending to" "…的";
  entry "ic" "relating to" "…的";
  entry "tic" "relating to" "…的";
  entry "ary" "relating to" "…的";
  entry "ory" "relating to" "…的";
  entry "ish" "like, somewhat" "像…的";
  entry "like" "similar to" "像…的";
  entry "ly" "like, having quality" "…的";
  entry "y" "having quality" "…的";
  entry "ed" "having" "有…的";
  entry "en" "made of" "由…制成";
  entry "ern" "direction" "…方向的";
  entry "ese" "nationality" "…国的";
  entry "ward" "direction" "向…";
  entry "wards" "direction" "向…";
  entry "wise" "manner" "…方式";
  entry "ize" "make, become" "使…化";
  entry "ise" "make, become" "使…化";
  entry "fy" "make" "使…";
  entry "ify" "make" "使…";
  entry "ate" "make, act" "使…，做";
  entry "ly" "in manner of" "…地";
  entry "ing" "action, process" "…中";
  entry "ling" "small, young" "小…";
  entry "let" "small" "小…";
  entry "ette" "small" "小…";
  entry "oid" "like" "像…的";
  entry "scope" "instrument for seeing" "…镜";
  entry "graphy" "writing, study" "…学，…术";
  entry "logy" "study of" "…学";
  entry "nomy" "law, knowledge" "…学";
  entry "metry" "measurement" "…测量";
  entry "phobia" "fear" "恐…症";
  entry "cracy" "rule by" "…统治";
  entry "crat" "ruler" "…统治者";
  entry "arch" "ruler" "统治者";
  entry "archy" "rule" "统治";
  entry "cide" "killing" "杀";
  entry "path" "feeling, disease" "…病";
  entry "pathy" "feeling" "…感"
].

Inductive component_type := PREFIX | ROOT | SUFFIX.

Definition component_type_eqb (a b : component_type) : bool :=
  match a, b with
  | PREFIX, PREFIX | ROOT, ROOT | SUFFIX, SUFFIX => true
  | _, _ => false
  end.

(** A component [{ part, type, meaning, chineseMeaning }]. *)
Record component := mk_component {
  part : str;
  type : component_type;
  comp_meaning : str;
  chineseMeaning : str
}.

Definition to_component (t : component_type) (m : morpheme) : component :=
  {| part := pattern m; type := t; comp_meaning := meaning m; chineseMeaning := chinese m |}.

(** [[...table].sort((a, b) => b.pattern.length - a.pattern.length)]:
    a stable sort by decreasing pattern length (insertion sort, later
    elements of equal length stay after earlier ones). *)
Fixpoint insert_by_len (x : morpheme) (l : list morpheme) : list morpheme :=
  match l with
  | [] => [x]
  | y :: l' =>
      if length (pattern y) <? length (pattern x) then x :: l
      else y :: insert_by_len x l'
  end.

Definition sort_by_len_desc (l : list morpheme) : list morpheme :=
  fold_left (fun acc x => insert_by_len x acc) l [].

Definition sortedPrefixes := sort_by_len_desc prefixes.
Definition sortedRoots := sort_by_len_desc roots.
Definition sortedSuffixes := sort_by_len_desc suffixes.

(** The body of the prefix [for] loop: first prefix (longest first) that
    starts the window and leaves more than 2 characters. *)
Definition find_prefix (remainingWord : str) : option morpheme :=
  find (fun p => starts_with (pattern p) remainingWord
                 && (length (pattern p) + 2 <? length remainingWord))
       sortedPrefixes.

Definition count_prefixes (components : list component) : nat :=
  length (filter (fun c => component_type_eqb (type c) PREFIX) components).

(** [while (foundPrefix && components.filter(PREFIX).length < 2) ...];
    the fuel only bounds the iterations ([prefix_loop_fuel] shows that 3
    rounds already reach the loop exit). *)
Fixpoint prefix_loop (fuel : nat) (foundPrefix : bool)
    (components : list component) (remainingWord : str) : list component * str :=
  match fuel with
  | O => (components, remainingWord)
  | S fuel' =>
      if foundPrefix && (count_prefixes components <? 2) then
        match find_prefix remainingWord with
        | Some p =>
            prefix_loop fuel' true (components ++ [to_component PREFIX p])
              (skipn (length (pattern p)) remainingWord)
        | None => prefix_loop fuel' false components remainingWord
        end
      else (components, remainingWord)
  end.

(** The body of the suffix [for] loop: first suffix (longest first) that
    ends the window and leaves more than 1 character. *)
Definition find_suffix (tempWord : str) : option morpheme :=
  find (fun s => ends_with (pattern s) tempWord
                 && (length (pattern s) + 1 <? length tempWord))
       sortedSuffixes.

(** [while (foundSuffix && foundSuffixes.length < 2) ...], with
    [foundSuffixes.unshift(...)] and [tempWord.slice(0, -len)]. *)
Fixpoint suffix_loop (fuel : nat) (foundSuffix : bool)
    (foundSuffixes : list component) (tempWord : str) : list component * str :=
  match fuel with
  | O => (foundSuffixes, tempWord)
  | S fuel' =>
      if foundSuffix && (length foundSuffixes <? 2) then
        match find_suffix tempWord with
        | Some s =>
            suffix_loop fuel' true (to_component SUFFIX s :: foundSuffixes)
              (slice_drop_end (length (pattern s)) tempWord)
        | None => suffix_loop fuel' false foundSuffixes tempWord
        end
      else (foundSuffixes, tempWord)
  end.

(** Root search: first root (longest first) contained in the window. *)
Definition find_root (s : str) : option morpheme :=
  find (fun r => includes (pattern r) s) sortedRoots.

Record etymology := mk_etymology {
  components : list component;
  origin : option str;
  hasContent : bool
}.

(** [analyzeWordRoot(word, origin = null)]; [None] is [null]. *)
Definition analyzeWordRoot (word : str) (origin : option str) : etymology :=
  let lowercased := toLowerCase word in
  let '(prefix_components, remainingWord) := prefix_loop 3 true [] lowercased in
  let '(foundSuffixes, tempWord) := suffix_loop 3 true [] remainingWord in
  let root_components :=
    match find_root tempWord with
    | Some r => [to_component ROOT r]
    | None =>
        match find_root lowercased with
        | Some r => [to_component ROOT r]
        | None => []
        end
    end in
  let comps := prefix_components ++ root_components ++ foundSuffixes in
  {| components := comps;
     origin := origin;
     hasContent := negb (is_nil comps) || match origin with Some _ => true | None => false end |}.

(** ** Dictionary Service (dictionary-service.js) *)

(** [DictionaryError]; the thrown object's [message] is not modelled. *)
Inductive dict_error := WORD_NOT_FOUND | NETWORK_ERROR | DECODING_ERROR | INVALID_URL.

(** A promise that settles with a value or rejects with a [DictionaryError]. *)
Inductive result (A : Type) :=
| Ok (a : A)
| Err (e : dict_error).
Arguments Ok {A} a.
Arguments Err {A} e.

(** What [fetch(url)] followed by [response.json()] yields: the fetch
    promise rejects ([FetchRejected]), or a response arrives with an HTTP
    status and a body that parses to a JSON value ([Some]) or makes
    [response.json()] throw a [SyntaxError] ([None]). *)
Inductive fetch_outcome (A : Type) :=
| FetchRejected
| HttpResponse (status : Z) (body : option A).
Arguments FetchRejected {A}.
Arguments HttpResponse {A} status body.

(** [response.ok] *)
Definition response_ok (status : Z) : bool := (200 <=? status)%Z && (status <=? 299)%Z.

(** One item of [entry.meanings]; only [partOfSpeech] is read. *)
Record meaning_json := mk_meaning { partOfSpeech : option str }.

(** A dictionary entry as the dictionary API returns it (fields read by the
    code: [word] and [meanings]; [entry.meanings || []]). *)
Record dict_entry := mk_entry {
  entry_word : str;
  meanings : list meaning_json
}.

(** One item of [data.matches] of the translation API. *)
Record tr_match := mk_match {
  translation : option str;
  quality : option Z
}.

(** The translation API payload: [data.responseData.translatedText]
    ([None] when [responseData] or [translatedText] is missing) and
    [data.matches] ([None] when missing or not an array). *)
Record tr_data := mk_tr_data {
  translatedText : option str;
  matches : option (list tr_match)
}.

(** The external provider: the response of the dictionary API for a word,
    and of the translation API for a query text and a language pair. *)
Record provider := mk_provider {
  dictionary_api : str -> fetch_outcome (list dict_entry);
  translation_api : str -> str -> fetch_outcome tr_data
}.

(** [fetchEnglishDefinition(word)] *)
Definition fetchEnglishDefinition (net : provider) (word : str) : result (list dict_entry) :=
  match dictionary_api net (trim word) with
  | FetchRejected => Err NETWORK_ERROR
  | HttpResponse status body =>
      if (status =? 404)%Z then Err WORD_NOT_FOUND
      else if negb (response_ok status) then Err NETWORK_ERROR
      else match body with
           | None => Err DECODING_ERROR
           | Some data => Ok data
           end
  end.

Record translation_result := mk_translation {
  primary : str;
  alternatives : list str
}.

(** [s.length] of a JavaScript string, counted in UTF-16 code units from
    its UTF-8 bytes: a continuation byte (80..BF) adds nothing, the lead
    byte of a 4-byte sequence (F0..F7, a character outside the BMP, stored
    as a surrogate pair) adds 2, every other byte adds 1. *)
Definition utf16_units (b : ascii) : nat :=
  let n := nat_of_ascii b in
  if (128 <=? n) && (n <? 192) then 0 else if 240 <=? n then 2 else 1.

Definition utf16_length (s : str) : nat := fold_right (fun b n => utf16_units b + n) 0 s.

(** The [for (const match of data.matches)] loop, with the [seen] set and
    the [break] once 5 alternatives are collected. *)
Fixpoint collect_alternatives (ms : list tr_match) (seen : list str)
    (alts : list str) : list str :=
  match ms with
  | [] => alts
  | m :: ms' =>
      match translation m, quality m with
      | Some t, Some q =>
          if negb (is_nil t) && (50 <? q)%Z then
            let trans := trim t in
            let transLower := toLowerCase trans in
            if negb (mem transLower seen) && (utf16_length trans <? 50) then
              let alts' := alts ++ [trans] in
              if 5 <=? length alts' then alts'
              else collect_alternatives ms' (transLower :: seen) alts'
            else collect_alternatives ms' seen alts
          else collect_alternatives ms' seen alts
      | _, _ => collect_alternatives ms' seen alts
      end
  end.

Definition en_zh : str := js "en|zh-CN".

(** [fetchChineseTranslation(text)] *)
Definition fetchChineseTranslation (net : provider) (text : str) : result translation_result :=
  match translation_api net (trim text) en_zh with
  | FetchRejected => Err NETWORK_ERROR
  | HttpResponse status body =>
      if negb (response_ok status) then Err NETWORK_ERROR
      else match body with
           | None => Err DECODING_ERROR
           | Some data =>
               match translatedText data with
               | Some primary =>
                   if is_nil primary then Err DECODING_ERROR
                   else
                     let alternatives :=
                       match matches data with
                       | Some ms => collect_alternatives ms [toLowerCase primary] []
                       | None => []
                       end in
                     Ok {| primary := primary; alternatives := alternatives |}
               | None => Err DECODING_ERROR
               end
           end
  end.

(** The object returned by [lookupWord] (the [timestamp] is not modelled). *)
Record lookup_result := mk_lookup {
  lr_word : str;
  englishDefinitions : list dict_entry;
  chineseTranslation : translation_result;
  isPhrase : bool
}.

(** [lookupWord(word)]: the translation promise is created first, the
    definitions are awaited inside [try]/[catch], then the translation is
    awaited (a rejection propagates). *)
Definition lookupWord (net : provider) (word : str) : result lookup_result :=
  let trimmedWord := trim word in
  let '(englishDefinitions, isPhrase) :=
    match fetchEnglishDefinition net trimmedWord with
    | Ok data => (data, false)
    | Err WORD_NOT_FOUND =>
        ([], includes (js " ") trimmedWord || includes (js "-") trimmedWord)
    | Err _ => ([], false)
    end in
  match fetchChineseTranslation net trimmedWord with
  | Err e => Err e
  | Ok chineseTranslation =>
      Ok {| lr_word := trimmedWord;
            englishDefinitions := englishDefinitions;
            chineseTranslation := chineseTranslation;
            isPhrase := isPhrase || includes (js " ") trimmedWord |}
  end.

(** *** Word family *)

(** [addForm]: appends [form] when it is non-empty, differs from [w], is
    longer than 2 characters and is not already listed. *)
Definition add_form (w : str) (forms : list str) (form : str) : list str :=
  if negb (is_nil form) && negb (str_eqb form w) && (2 <? length form)
     && negb (mem form forms)
  then forms ++ [form] else forms.

Definition is_vowel (c : ascii) : bool := mem [c] (map (fun c => [c]) (js "aeiou")).

(** [w.match(/[^aeiou]y$/)] *)
Definition ends_with_consonant_y (w : str) : bool :=
  match rev w with
  | y :: c :: _ => ascii_eqb y "y"%char && negb (is_vowel c)
  | _ => false
  end.

(** The [addForm] calls of [generatePotentialForms], in source order. *)
Definition potential_form_candidates (w : str) : list str :=
  let endsWithE := ends_with (js "e") w in
  let base := if endsWithE then slice_drop_end 1 w else w in
  (* Verb forms *)
  (if endsWithE then
     [base ++ js "ing"; base ++ js "ed"; w ++ js "d"; base ++ js "ion";
      base ++ js "ation"; base ++ js "ive"; base ++ js "or"; base ++ js "er"]
   else
     [w ++ js "ing"; w ++ js "ed"; w ++ js "er"; w ++ js "ion"; w ++ js "ation"])
  (* Adjective forms *)
  ++ (if endsWithE then [base ++ js "ive"; base ++ js "ively"] else [])
  ++ [w ++ js "ive"; w ++ js "ively"; w ++ js "ly"; w ++ js "ness"]
  (* Comparative/superlative *)
  ++ (if endsWithE then [w ++ js "r"; w ++ js "st"] else [w ++ js "er"; w ++ js "est"])
  (* -y endings *)
  ++ (if ends_with_consonant_y w then
        let yBase := slice_drop_end 1 w in
        [yBase ++ js "ily"; yBase ++ js "iness"; yBase ++ js "ier";
         yBase ++ js "iest"; yBase ++ js "ied"; yBase ++ js "ies"]
      else [])
  (* Noun forms *)
  ++ [w ++ js "ment"; w ++ js "ness"; w ++ js "ity"]
  ++ (if endsWithE then [base ++ js "ity"] else [])
  (* Derived forms: back to the base *)
  ++ (if ends_with (js "tion") w || ends_with (js "sion") w then
        let nounBase := slice_drop_end 4 w in
        [nounBase ++ js "e"; nounBase; nounBase ++ js "ive"; nounBase ++ js "ively"]
      else [])
  ++ (if ends_with (js "ive") w then
        let adjBase := slice_drop_end 3 w in
        [adjBase ++ js "e"; adjBase ++ js "ion"; w ++ js "ly";
         slice_drop_end 1 w ++ js "ity"]
      else [])
  ++ (if ends_with (js "ly") w then
        let advBase := slice_drop_end 2 w in [advBase; advBase ++ js "e"]
      else [])
  ++ (if ends_with (js "ness") w then
        let nessBase := slice_drop_end 4 w in [nessBase; nessBase ++ js "ly"]
      else []).

(** [generatePotentialForms(word)], with [forms.slice(0, 20)]. *)
Definition generatePotentialForms (word : str) : list str :=
  let w := toLowerCase word in
  firstn 20 (fold_left (add_form w) (potential_form_candidates w) []).

Record form_info := mk_form_info {
  fi_pos : str;
  fi_label : str;
  fi_icon : str
}.

Definition info (pos label icon : string) : option form_info :=
  Some {| fi_pos := js pos; fi_label := js label; fi_icon := js icon |}.

Definition ends (suffix : string) (w : str) : bool := ends_with (js suffix) w.

(** [getWordFormInfo(word, baseWord)] *)
Definition getWordFormInfo (word baseWord : str) : option form_info :=
  let w := toLowerCase word in
  let base := toLowerCase baseWord in
  if ends "ing" w then info "verb" "Present Participle" "-ing"
  else if ends "ed" w && (starts_with (firstn 3 base) w || ends "e" base) then
    info "verb" "Past Tense" "Past"
  else if str_eqb w (base ++ js "d") || str_eqb w (slice_drop_end 1 base ++ js "ed") then
    info "verb" "Past Tense" "Past"
  else if ends "est" w then info "adjective" "Superlative" "-est"
  else if ends "er" w && (length w <? length base + 4) && negb (ends "ier" w)
          && (str_eqb w (base ++ js "r") || str_eqb w (base ++ js "er")
              || str_eqb w (slice_drop_end 1 base ++ js "ier")) then
    info "adjective" "Comparative" "-er"
  else if ends "ier" w && ends "y" base then info "adjective" "Comparative" "-er"
  else if ends "iest" w && ends "y" base then info "adjective" "Superlative" "-est"
  else if ends "ly" w then info "adverb" "Adverb" "Adv"
  else if ends "ily" w then info "adverb" "Adverb" "Adv"
  else if ends "ally" w then info "adverb" "Adverb" "Adv"
  else if ends "ive" w || ends "ative" w then info "adjective" "Adjective" "Adj"
  else if ends "ous" w || ends "ious" w || ends "eous" w then
    info "adjective" "Adjective" "Adj"
  else if ends "able" w || ends "ible" w then info "adjective" "Adjective" "Adj"
  else if ends "ful" w || ends "less" w then info "adjective" "Adjective" "Adj"
  else if ends "al" w && (4 <? length w) then info "adjective" "Adjective" "Adj"
  else if ends "ic" w || ends "ical" w then info "adjective" "Adjective" "Adj"
  else if ends "tion" w || ends "sion" w then info "noun" "Noun" "N"
  else if ends "ment" w then info "noun" "Noun" "N"
  else if ends "ness" w then info "noun" "Noun" "N"
  else if ends "ity" w then info "noun" "Noun" "N"
  else if ends "ance" w || ends "ence" w then info "noun" "Noun" "N"
  else if ends "er" w || ends "or" w then info "noun" "Noun (person)" "N"
  else if ends "ist" w || ends "ism" w then info "noun" "Noun" "N"
  else if ends "ize" w || ends "ise" w then info "verb" "Verb" "V"
  else if ends "ify" w then info "verb" "Verb" "V"
  else if ends "ate" w && (5 <? length w) then info "verb" "Verb" "V"
  else None.

(** A verified form [{ word, partOfSpeech, icon, order }]. *)
Record word_form := mk_word_form {
  wf_word : str;
  wf_partOfSpeech : str;
  wf_icon : str;
  wf_order : nat
}.

(** [orderMap[pos] || 5] *)
Definition orderMap (pos : str) : nat :=
  if str_eqb pos (js "noun") then 1
  else if str_eqb pos (js "verb") then 2
  else if str_eqb pos (js "adjective") then 3
  else if str_eqb pos (js "adverb") then 4
  else 5.

(** [genericLabels[pos]] *)
Definition genericLabels (pos : str) : option (str * str) :=
  if str_eqb pos (js "noun") then Some (js "Noun", js "N")
  else if str_eqb pos (js "verb") then Some (js "Verb", js "V")
  else if str_eqb pos (js "adjective") then Some (js "Adjective", js "Adj")
  else if str_eqb pos (js "adverb") then Some (js "Adverb", js "Adv")
  else None.

(** [meanings.map(m => m.partOfSpeech?.toLowerCase()).filter(Boolean)] *)
Definition apiPOSList (ms : list meaning_json) : list str :=
  flat_map (fun m => match partOfSpeech m with
                     | Some p => if is_nil (toLowerCase p) then [] else [toLowerCase p]
                     | None => []
                     end) ms.

(** [verifyWordForm(word, baseWord)], given the dictionary API's answer for
    [word]; every failure, thrown or not, yields [null] ([None]). *)
Definition verifyWordForm (resp : fetch_outcome (list dict_entry))
    (word baseWord : str) : option word_form :=
  match resp with
  | FetchRejected => None
  | HttpResponse status body =>
      if negb (response_ok status) then None
      else match body with
           | None => None
           | Some [] => None
           | Some (entry :: _) =>
               let ms := meanings entry in
               if is_nil ms then None
               else
                 match getWordFormInfo word baseWord with
                 | Some fi =>
                     Some {| wf_word := entry_word entry; wf_partOfSpeech := fi_label fi;
                             wf_icon := fi_icon fi; wf_order := orderMap (fi_pos fi) |}
                 | None =>
                     match apiPOSList ms with
                     | [] => None
                     | pos :: _ =>
                         match genericLabels pos with
                         | None => None
                         | Some (label, icon) =>
                             Some {| wf_word := entry_word entry; wf_partOfSpeech := label;
                                     wf_icon := icon; wf_order := orderMap pos |}
                         end
                     end
                 end
           end
  end.

(** The verifier [fetchWordFamily] awaits for each candidate: any function
    from (candidate, base word) to a verified form or [null]. *)
Definition verifier := str -> str -> option word_form.

(** The filtering loop of [fetchWordFamily] over the verification results,
    with the [seenWords] and [seenPOS] sets. *)
Fixpoint filter_loop (results : list (option word_form)) (seenWords seenPOS : list str)
    (forms : list word_form) : list word_form :=
  match results with
  | [] => forms
  | None :: rs => filter_loop rs seenWords seenPOS forms
  | Some result :: rs =>
      let wl := toLowerCase (wf_word result) in
      if negb (mem wl seenWords) then
        let posKey := wf_partOfSpeech result in
        if negb (mem posKey seenPOS) || (length forms <? 4) then
          filter_loop rs (wl :: seenWords) (posKey :: seenPOS) (forms ++ [result])
        else filter_loop rs seenWords seenPOS forms
      else filter_loop rs seenWords seenPOS forms
  end.

(** The filtering step, started with [seenWords = new Set([trimmedWord])]. *)
Definition filter_forms (trimmedWord : str) (results : list (option word_form)) : list word_form :=
  filter_loop results [trimmedWord] [] [].

(** [forms.sort((a, b) => a.order - b.order)]: stable insertion sort. *)
Fixpoint insert_by_order (x : word_form) (l : list word_form) : list word_form :=
  match l with
  | [] => [x]
  | y :: l' => if wf_order x <? wf_order y then x :: l else y :: insert_by_order x l'
  end.

Definition sort_by_order (l : list word_form) : list word_form :=
  fold_left (fun acc x => insert_by_order x acc) l [].

Record word_family := mk_word_family {
  wfam_word : str;
  forms : list word_form;
  wfam_hasContent : bool
}.

(** [fetchWordFamily(word)] over a verifier. *)
Definition fetchWordFamily (verify : verifier) (word : str) : word_family :=
  let trimmedWord := toLowerCase (trim word) in
  if includes (js " ") trimmedWord then
    {| wfam_word := trimmedWord; forms := []; wfam_hasContent := false |}
  else
    let potentialForms := generatePotentialForms trimmedWord in
    let results := map (fun form => verify form trimmedWord) potentialForms in
    let forms := filter_forms trimmedWord results in
    let limitedForms := firstn 6 (sort_by_order forms) in
    {| wfam_word := trimmedWord; forms := limitedForms;
       wfam_hasContent := negb (is_nil limitedForms) |}.

(** [fetchWordFamily] as the source runs it: each candidate verified by
    [verifyWordForm] against the dictionary API. *)
Definition fetchWordFamily_live (net : provider) (word : str) : word_family :=
  fetchWordFamily (fun form baseWord => verifyWordForm (dictionary_api net form) form baseWord) word.

(** ** Predicates used in the statements *)

(** A component built from an entry of [table] with type [t]. *)
Definition from_table (t : component_type) (table : list morpheme) (c : component) : Prop :=
  exists m, In m table /\ c = to_component t m.

(** An alternative translation the provider really offered: shorter than 50
    characters (UTF-16 code units, as [trans.length] counts), and the trimmed [translation] of a match whose [quality]
    exceeds 50. *)
Definition good_alternative (ms : list tr_match) (a : str) : Prop :=
  utf16_length a < 50 /\
  exists m t q, In m ms /\ translation m = Some t /\ quality m = Some q
                /\ (50 < q)%Z /\ trim t = a.

(** At most 5 alternatives, each offered by the provider, pairwise distinct
    ignoring case, and none equal to the primary ignoring case. *)
Definition alternatives_ok (ms : list tr_match) (primaryLower : str) (alts : list str) : Prop :=
  length alts <= 5 /\ Forall (good_alternative ms) alts /\
  NoDup (map toLowerCase alts) /\ ~ In primaryLower (map toLowerCase alts).

(** [result.word.toLowerCase()] *)
Definition lower_word (f : word_form) : str := toLowerCase (wf_word f).

(** From the fifth kept form on, each form's label differs from the labels
    of all forms kept before it. *)
Definition labels_fresh_after_threshold (forms : list word_form) : Prop :=
  forall i f, nth_error forms i = Some f -> 4 <= i ->
  ~ In (wf_partOfSpeech f) (map wf_partOfSpeech (firstn i forms)).


(** A verified form [r] passes the filter after the forms [kept]: its
    lowercased word is neither the query nor the word of a kept form, and
    fewer than 4 forms are kept or its label is not the label of a kept
    form. *)
Definition admits (trimmedWord : str) (kept : list word_form) (r : word_form) : Prop :=
  ~ In (lower_word r) (trimmedWord :: map lower_word kept) /\
  (length kept < 4 \/ ~ In (wf_partOfSpeech r) (map wf_partOfSpeech kept)).





(** ** Concrete providers *)

(** The translation matches of the spec's filtering scenario, with primary
    "Hello". *)
Definition hi_hey_data : tr_data :=
  {| translatedText := Some (js "Hello");
     matches := Some [mk_match (Some (js "Hi")) (Some 90%Z);
                      mk_match (Some (js "Hi")) (Some 60%Z);
                      mk_match (Some (repeat "x"%char 60)) (Some 95%Z);
                      mk_match (Some (js "Hey")) (Some 51%Z)] |}.

Definition hi_hey_provider : provider :=
  {| dictionary_api := fun _ => HttpResponse 404%Z None;
     translation_api := fun _ _ => HttpResponse 200%Z (Some hi_hey_data) |}.

Definition hello_translation : translation_result :=
  {| primary := js "Hello"; alternatives := [js "Hi"; js "Hey"] |}.

(** The dictionary API is unreachable; the translation API answers. *)
Definition dictionary_offline_provider : provider :=
  {| dictionary_api := fun _ => FetchRejected;
     translation_api := fun _ _ =>
       HttpResponse 200%Z (Some {| translatedText := Some (js "你好"); matches := None |}) |}.

(** Both APIs answer; the dictionary has an entry for every query. *)
Definition phrase_provider : provider :=
  {| dictionary_api := fun w => HttpResponse 200%Z
                         (Some [mk_entry w [mk_meaning (Some (js "noun"))]]);
     translation_api := fun _ _ =>
       HttpResponse 200%Z (Some {| translatedText := Some (js "小菜一碟"); matches := None |}) |}.

(** Three verified forms sharing the label "Noun". *)
Definition noun_form (w : string) : word_form :=
  {| wf_word := js w; wf_partOfSpeech := js "Noun"; wf_icon := js "N"; wf_order := 1 |}.

(** ** Entry helpers of the dictionary service (dictionary-service.js, 250-322) *)

(** JavaScript truthiness of an optional string field: [undefined] and the
    empty string are falsy. *)
Definition truthy_str (o : option str) : option str :=
  match o with
  | Some s => if is_nil s then None else Some s
  | None => None
  end.

(** One item of [entry.phonetics]: [{ text, audio }]. *)
Record phonetic_json := mk_phonetic {
  ph_text : option str;
  ph_audio : option str
}.

(** One item of [meaning.definitions]; only [synonyms] is read. *)
Record definition_json := mk_definition { def_synonyms : option (list str) }.

(** One item of [entry.meanings], with the fields the helpers read. *)
Record full_meaning := mk_full_meaning {
  fm_partOfSpeech : option str;
  fm_synonyms : option (list str);
  fm_definitions : option (list definition_json)
}.

(** A dictionary entry with the fields read by [getPhoneticText],
    [getAllSynonyms] and [pronounceNotebookWord]; [None] for a field stands
    for a missing field (or, for [phonetics], a value that is not an
    array). *)
Record full_entry := mk_full_entry {
  fe_word : str;
  fe_phonetic : option str;
  fe_phonetics : option (list phonetic_json);
  fe_meanings : option (list full_meaning)
}.

(** The view of a full entry that [verifyWordForm] and [lookupWord] read
    ([entry.meanings || []]). *)
Definition to_dict_entry (e : full_entry) : dict_entry :=
  {| entry_word := fe_word e;
     meanings := map (fun m => mk_meaning (fm_partOfSpeech m))
                   (match fe_meanings e with Some ms => ms | None => [] end) |}.

(** [p => p.audio && (p.audio.includes('-us') || p.audio.includes('/us/'))] *)
Definition is_us_audio (p : phonetic_json) : bool :=
  match truthy_str (ph_audio p) with
  | Some a => includes (js "-us") a || includes (js "/us/") a
  | None => false
  end.

(** [p => p.audio && p.audio.trim() !== ''] *)
Definition has_audio (p : phonetic_json) : bool :=
  match truthy_str (ph_audio p) with
  | Some a => negb (is_nil (trim a))
  | None => false
  end.

(** [getBestAudioUrl(phonetics)]; [None] as argument is a missing value or
    one that is not an array, [None] as result is [null]. *)
Definition getBestAudioUrl (phonetics : option (list phonetic_json)) : option str :=
  match phonetics with
  | None => None
  | Some ps =>
      let anyAudio :=
        match find has_audio ps with
        | Some p => truthy_str (ph_audio p)
        | None => None
        end in
      match find is_us_audio ps with
      | Some usAudio =>
          match truthy_str (ph_audio usAudio) with
          | Some a => Some a
          | None => anyAudio
          end
      | None => anyAudio
      end
  end.

(** [p => p.text && p.text.trim() !== ''] *)
Definition has_text (p : phonetic_json) : bool :=
  match truthy_str (ph_text p) with
  | Some t => negb (is_nil (trim t))
  | None => false
  end.

(** [getPhoneticText(entry)] *)
Definition getPhoneticText (entry : full_entry) : str :=
  match truthy_str (fe_phonetic entry) with
  | Some p => p
  | None =>
      match fe_phonetics entry with
      | Some ps =>
          match find has_text ps with
          | Some withText => match ph_text withText with Some t => t | None => [] end
          | None => []
          end
      | None => []
      end
  end.

(** [Set.prototype.add] on a set kept as the list of its elements in
    insertion order ([Array.from] returns them in that order). *)
Definition set_add (s : list str) (x : str) : list str :=
  if mem x s then s else s ++ [x].

Definition add_synonyms (acc : list str) (o : option (list str)) : list str :=
  match o with
  | Some ss => fold_left set_add ss acc
  | None => acc
  end.

(** One iteration of the [for (const meaning of entry.meanings)] loop. *)
Definition add_meaning_synonyms (acc : list str) (m : full_meaning) : list str :=
  let acc1 := add_synonyms acc (fm_synonyms m) in
  match fm_definitions m with
  | Some ds => fold_left (fun acc d => add_synonyms acc (def_synonyms d)) ds acc1
  | None => acc1
  end.

(** [getAllSynonyms(entry)] *)
Definition getAllSynonyms (entry : full_entry) : list str :=
  match fe_meanings entry with
  | Some ms => fold_left add_meaning_synonyms ms []
  | None => []
  end.

(** ** Chinese to English lookup (dictionary-service.js, 123-212) *)

(** The provider with full dictionary entries. *)
Record full_provider := mk_full_provider {
  full_dictionary_api : str -> fetch_outcome (list full_entry);
  full_translation_api : str -> str -> fetch_outcome tr_data
}.

Definition map_outcome {A B : Type} (f : A -> B) (o : fetch_outcome A) : fetch_outcome B :=
  match o with
  | FetchRejected => FetchRejected
  | HttpResponse status body => HttpResponse status (option_map f body)
  end.

(** The same provider seen through [to_dict_entry]. *)
Definition to_provider (fp : full_provider) : provider :=
  {| dictionary_api := fun w => map_outcome (map to_dict_entry) (full_dictionary_api fp w);
     translation_api := full_translation_api fp |}.

(** [fetchEnglishDefinition(word)] over full entries. *)
Definition fetchEnglishDefinitionFull (fp : full_provider) (word : str) : result (list full_entry) :=
  match full_dictionary_api fp (trim word) with
  | FetchRejected => Err NETWORK_ERROR
  | HttpResponse status body =>
      if (status =? 404)%Z then Err WORD_NOT_FOUND
      else if negb (response_ok status) then Err NETWORK_ERROR
      else match body with
           | None => Err DECODING_ERROR
           | Some data => Ok data
           end
  end.

Definition zh_en : str := js "zh-CN|en".

(** [fetchEnglishTranslation(text)] *)
Definition fetchEnglishTranslation (net : provider) (text : str) : result str :=
  match translation_api net (trim text) zh_en with
  | FetchRejected => Err NETWORK_ERROR
  | HttpResponse status body =>
      if negb (response_ok status) then Err NETWORK_ERROR
      else match body with
           | None => Err DECODING_ERROR
           | Some data =>
               match truthy_str (translatedText data) with
               | Some t => Ok t
               | None => Err DECODING_ERROR
               end
           end
  end.

(** [\w] *)
Definition is_word_char (c : ascii) : bool :=
  let n := nat_of_ascii c in
  ((48 <=? n) && (n <=? 57)) || ((65 <=? n) && (n <=? 90))
  || ((97 <=? n) && (n <=? 122)) || (n =? 95).

(** [s.replace(/[^\w\s]/g, '')]; [\s] is [is_ws], as in [trim]. *)
Definition strip_non_word (s : str) : str :=
  filter (fun c => is_word_char c || is_ws c) s.

(** [s.split(/\s+/)]: [in_sep] tells whether the previous character was
    white space, so that a run of white space is one separator. *)
Fixpoint split_ws_aux (s : str) (cur : str) (in_sep : bool) : list str :=
  match s with
  | [] => [rev cur]
  | c :: s' =>
      if is_ws c then
        if in_sep then split_ws_aux s' [] true
        else rev cur :: split_ws_aux s' [] true
      else split_ws_aux s' (c :: cur) false
  end.

Definition split_ws (s : str) : list str := split_ws_aux s [] false.

(** [s.split(' ')[0]] *)
Fixpoint first_segment (s : str) : str :=
  match s with
  | [] => []
  | c :: s' => if ascii_eqb c " "%char then [] else c :: first_segment s'
  end.

(** The object returned by [lookupChineseWord] ([isChinese: true] and the
    [timestamp] are not modelled). *)
Record chinese_result := mk_chinese_result {
  chineseWord : str;
  englishTranslation : str;
  translationWords : list str;
  definitions : list full_entry;
  cw_alternatives : list str
}.

(** [lookupChineseWord(chineseText)] *)
Definition lookupChineseWord (fp : full_provider) (chineseText : str) : result chinese_result :=
  let trimmedText := trim chineseText in
  match fetchEnglishTranslation (to_provider fp) trimmedText with
  | Err e => Err e
  | Ok englishTranslation =>
      let translationWords :=
        filter (fun w => 2 <? length w)
          (split_ws (strip_non_word (toLowerCase englishTranslation))) in
      let mainWord :=
        match translationWords with
        | w :: _ => w
        | [] => first_segment englishTranslation
        end in
      let '(definitions, alternatives) :=
        match fetchEnglishDefinitionFull fp mainWord with
        | Ok defResult =>
            match defResult with
            | e :: _ => (defResult, firstn 10 (getAllSynonyms e))
            | [] => ([], [])
            end
        | Err _ => ([], [])
        end in
      let alternatives :=
        if length alternatives <? 5 then
          let otherWords := filter (fun w => negb (mem w alternatives)) (tl translationWords) in
          firstn 10 (alternatives ++ otherWords)
        else alternatives in
      Ok {| chineseWord := trimmedText; englishTranslation := englishTranslation;
            translationWords := translationWords; definitions := definitions;
            cw_alternatives := alternatives |}
  end.

(** [isChinese(text)]: [/[\u4e00-\u9fff]/.test(text)] on the UTF-8 bytes of
    the text, where a character of U+4E00..U+9FFF is the byte sequence
    E4 B8 80 .. E9 BF BF. *)
Definition is_cjk_utf8 (b1 b2 b3 : ascii) : bool :=
  let n1 := nat_of_ascii b1 in
  let n2 := nat_of_ascii b2 in
  let n3 := nat_of_ascii b3 in
  (228 <=? n1) && (n1 <=? 233) && (128 <=? n2) && (n2 <=? 191)
  && (128 <=? n3) && (n3 <=? 191) && (negb (n1 =? 228) || (184 <=? n2)).

Fixpoint isChinese (text : str) : bool :=
  match text with
  | b1 :: ((b2 :: b3 :: _) as rest) => is_cjk_utf8 b1 b2 b3 || isChinese rest
  | _ => false
  end.

(** ** Search and history (app.js, 92-93, 557-589, 1106-1132) *)

Definition MAX_HISTORY_SIZE : nat := 20.

(** [list.indexOf(x)] followed by [list.splice(index, 1)] when found. *)
Fixpoint remove_first (x : str) (l : list str) : list str :=
  match l with
  | [] => []
  | y :: l' => if str_eqb y x then l' else y :: remove_first x l'
  end.

(** [addToHistory(word)] on [searchHistory] (saving and display apart). *)
Definition addToHistory (word : str) (searchHistory : list str) : list str :=
  let h := toLowerCase word :: remove_first (toLowerCase word) searchHistory in
  if MAX_HISTORY_SIZE <? length h then firstn MAX_HISTORY_SIZE h else h.

(** [removeFromHistory(word)] on [searchHistory]. *)
Definition removeFromHistory (word : str) (searchHistory : list str) : list str :=
  remove_first (toLowerCase word) searchHistory.

Inductive search_result :=
| EnglishResult (r : lookup_result)
| ChineseResult (r : chinese_result).

(** [handleSearch()] with the input box value [input]: the lookup it makes
    ([None]: none, the query being empty) and the search history after it.
    [displayResults] / [displayChineseResults] run on a resolved lookup
    before [addToHistory]; they are not modelled here: they read fields of
    the entries returned (such as [entry.meanings] and
    [meaning.definitions]) and throw when one is missing.  [display_ok]
    says whether that call returns normally on a result.  A rejected lookup
    or a display that throws goes to the [catch] branch, which only shows
    the error: the history is left as it was. *)
Definition handleSearch (fp : full_provider) (display_ok : search_result -> bool)
    (input : str) (searchHistory : list str)
    : option (result search_result) * list str :=
  let query := trim input in
  if is_nil query then (None, searchHistory)
  else
    let r :=
      if isChinese query then
        match lookupChineseWord fp query with
        | Ok c => Ok (ChineseResult c)
        | Err e => Err e
        end
      else
        match lookupWord (to_provider fp) query with
        | Ok l => Ok (EnglishResult l)
        | Err e => Err e
        end in
    match r with
    | Ok s => if display_ok s then (Some r, addToHistory query searchHistory)
              else (Some r, searchHistory)
    | Err _ => (Some r, searchHistory)
    end.

(** ** Audio player (audio-player.js, 6-122) *)

(** The fields of an [AudioPlayer]: the URL of [this.audio] ([None] for
    [null]), the two flags, whether [onStateChange] is set, and the states
    passed to it so far, oldest first. *)
Record player := mk_player {
  audio : option str;
  isPlaying : bool;
  isLoading : bool;
  onStateChange : bool;
  notified : list (bool * bool)
}.

(** [new AudioPlayer()] *)
Definition new_player : player :=
  {| audio := None; isPlaying := false; isLoading := false;
     onStateChange := false; notified := [] |}.

Definition set_flags (a : option str) (playing loading : bool) (p : player) : player :=
  {| audio := a; isPlaying := playing; isLoading := loading;
     onStateChange := onStateChange p; notified := notified p |}.

(** [_notifyStateChange()] *)
Definition notifyStateChange (p : player) : player :=
  if onStateChange p then
    {| audio := audio p; isPlaying := isPlaying p; isLoading := isLoading p;
       onStateChange := true; notified := notified p ++ [(isPlaying p, isLoading p)] |}
  else p.

(** [setStateChangeCallback(callback)], [true] for a callable callback. *)
Definition setStateChangeCallback (set : bool) (p : player) : player :=
  {| audio := audio p; isPlaying := isPlaying p; isLoading := isLoading p;
     onStateChange := set; notified := notified p |}.

(** [stop()] *)
Definition stop (p : player) : player :=
  notifyStateChange (set_flags None false false p).

(** The synchronous part of [play(url)], up to [await this.audio.play()]. *)
Definition play (url : str) (p : player) : player :=
  if is_nil url then p
  else
    let p1 := stop p in
    let p2 := notifyStateChange (set_flags (audio p1) (isPlaying p1) true p1) in
    set_flags (Some url) (isPlaying p2) (isLoading p2) p2.

(** [toggle(url)] *)
Definition toggle (url : str) (p : player) : player :=
  if isPlaying p then stop p else play url p.

(** What happens later: the media events of [this.audio], whose handlers
    set the flags, and the rejection of [this.audio.play()], handled by the
    [catch] of [play]. *)
Inductive media_event := LoadStart | CanPlay | PlayStarted | Ended | MediaError | PlayRejected.

Definition on_event (ev : media_event) (p : player) : player :=
  match ev with
  | LoadStart => notifyStateChange (set_flags (audio p) (isPlaying p) true p)
  | CanPlay => notifyStateChange (set_flags (audio p) (isPlaying p) false p)
  | PlayStarted => notifyStateChange (set_flags (audio p) true (isLoading p) p)
  | Ended => notifyStateChange (set_flags (audio p) false (isLoading p) p)
  | MediaError | PlayRejected => notifyStateChange (set_flags (audio p) false false p)
  end.

Inductive player_op :=
| OpPlay (url : str)
| OpStop
| OpToggle (url : str)
| OpEvent (ev : media_event).

Definition step_player (p : player) (op : player_op) : player :=
  match op with
  | OpPlay url => play url p
  | OpStop => stop p
  | OpToggle url => toggle url p
  | OpEvent ev => on_event ev p
  end.

Definition run_player (p : player) (ops : list player_op) : player :=
  fold_left step_player ops p.

(** ** Notations for the statements *)

(** An optional JSON array, [[]] when missing. *)
Definition opt_list {A : Type} (o : option (list A)) : list A :=
  match o with Some l => l | None => [] end.

(** The synonyms listed in a meaning, at meaning level and at definition
    level. *)
Definition meaning_synonyms (m : full_meaning) : list str :=
  opt_list (fm_synonyms m)
  ++ flat_map (fun d => opt_list (def_synonyms d)) (opt_list (fm_definitions m)).


(** ** Concrete providers for the Chinese lookup and the search box *)

(** The translation API answers "An apple, a pear" for any query; the
    dictionary has an entry for "apple" with two synonyms. *)
Definition apple_provider : full_provider :=
  {| full_dictionary_api := fun w =>
       if str_eqb w (js "apple") then
         HttpResponse 200%Z
           (Some [mk_full_entry (js "apple") None None
                    (Some [mk_full_meaning (Some (js "noun")) (Some [js "pome"])
                             (Some [mk_definition (Some [js "fruit"; js "pome"])])])])
       else HttpResponse 404%Z None;
     full_translation_api := fun _ _ =>
       HttpResponse 200%Z (Some {| translatedText := Some (js "An apple, a pear");
                                   matches := None |}) |}.

(** Phonetics as the Free Dictionary API lists them: a British recording
    first, then an American one. *)
Definition uk_phonetic : phonetic_json :=
  {| ph_text := Some (js "/həˈləʊ/"); ph_audio := Some (js "https://api.dictionaryapi.dev/media/pronunciations/en/hello-uk.mp3") |}.

Definition us_phonetic : phonetic_json :=
  {| ph_text := None; ph_audio := Some (js "https://api.dictionaryapi.dev/media/pronunciations/en/hello-us.mp3") |}.


(** ** Basic facts about the string primitives *)

Lemma ascii_eqb_true (a b : ascii) : ascii_eqb a b = true <-> a = b.
Proof. unfold ascii_eqb; destruct (ascii_dec a b); split; congruence. Qed.

Lemma str_eqb_true (s t : str) : str_eqb s t = true <-> s = t.
Proof.
  revert t; induction s as [|a s IH]; intros [|b t]; simpl; try (split; congruence).
  rewrite andb_true_iff, ascii_eqb_true, IH; split.
  - intros [-> ->]; reflexivity.
  - intros H; injection H; auto.
Qed.

Lemma mem_true (x : str) (l : list str) : mem x l = true <-> In x l.
Proof.
  unfold mem; rewrite existsb_exists; split.
  - intros (y & Hy & Heq); apply str_eqb_true in Heq; subst; exact Hy.
  - intros Hx; exists x; split; [exact Hx | apply str_eqb_true; reflexivity].
Qed.

Lemma starts_with_app (p s : str) : starts_with p s = true <-> exists t, s = p ++ t.
Proof.
  revert s; induction p as [|a p IH]; intros [|b s]; simpl.
  - split; eauto.
  - split; eauto.
  - split; [discriminate | intros [t Ht]; discriminate].
  - rewrite andb_true_iff, ascii_eqb_true, IH; split.
    + intros [-> [t ->]]; eauto.
    + intros [t Ht]; injection Ht as -> ->; eauto.
Qed.

Lemma ends_with_app (p s : str) : ends_with p s = true <-> exists t, s = t ++ p.
Proof.
  unfold ends_with; rewrite starts_with_app; split.
  - intros [t Ht]; exists (rev t).
    rewrite <- (rev_involutive s), Ht, rev_app_distr, rev_involutive; reflexivity.
  - intros [t ->]; exists (rev t); apply rev_app_distr.
Qed.

Lemma includes_app_r (p t s : str) : includes p s = true -> includes p (t ++ s) = true.
Proof.
  induction t as [|c t IH]; simpl; auto.
  intros H; rewrite (IH H); apply orb_true_r.
Qed.

Lemma includes_starts_with (p s : str) : starts_with p s = true -> includes p s = true.
Proof. destruct s; simpl; intros ->; reflexivity. Qed.

Lemma includes_ends_with (p s : str) : ends_with p s = true -> includes p s = true.
Proof.
  rewrite ends_with_app; intros [t ->]; apply includes_app_r.
  apply includes_starts_with, starts_with_app; exists []; symmetry; apply app_nil_r.
Qed.

Lemma slice_drop_end_app (t p : str) : slice_drop_end (length p) (t ++ p) = t.
Proof.
  unfold slice_drop_end; rewrite length_app, Nat.add_sub, firstn_app, Nat.sub_diag.
  simpl; rewrite firstn_all, app_nil_r; reflexivity.
Qed.

(** ** Facts about the analyzer *)

Lemma insert_by_len_In (x y : morpheme) (l : list morpheme) :
  In y (insert_by_len x l) <-> x = y \/ In y l.
Proof.
  induction l as [|z l IH]; simpl.
  - tauto.
  - destruct (length (pattern z) <? length (pattern x)); simpl; rewrite ?IH; tauto.
Qed.

Lemma sort_by_len_desc_In (y : morpheme) (l : list morpheme) :
  In y (sort_by_len_desc l) <-> In y l.
Proof.
  unfold sort_by_len_desc.
  enough (H : forall acc, In y (fold_left (fun acc x => insert_by_len x acc) l acc)
                          <-> In y l \/ In y acc) by (rewrite H; simpl; tauto).
  induction l as [|x l IH]; intros acc; simpl.
  - tauto.
  - rewrite IH, insert_by_len_In; tauto.
Qed.

Lemma find_prefix_some (rem : str) (m : morpheme) :
  find_prefix rem = Some m ->
  In m prefixes /\ rem = pattern m ++ skipn (length (pattern m)) rem
  /\ length (pattern m) + 2 < length rem.
Proof.
  unfold find_prefix; intros H; apply find_some in H as [Hin Hm].
  apply andb_true_iff in Hm as [Hs Hlen].
  apply (proj1 (sort_by_len_desc_In _ _)) in Hin.
  apply starts_with_app in Hs as [t Ht].
  apply Nat.ltb_lt in Hlen.
  subst rem; repeat split; auto.
  rewrite skipn_app, Nat.sub_diag, skipn_all; reflexivity.
Qed.

Lemma find_suffix_some (tmp : str) (m : morpheme) :
  find_suffix tmp = Some m ->
  In m suffixes /\ tmp = slice_drop_end (length (pattern m)) tmp ++ pattern m
  /\ length (pattern m) + 1 < length tmp.
Proof.
  unfold find_suffix; intros H; apply find_some in H as [Hin Hm].
  apply andb_true_iff in Hm as [Hs Hlen].
  apply (proj1 (sort_by_len_desc_In _ _)) in Hin.
  apply ends_with_app in Hs as [t Ht].
  apply Nat.ltb_lt in Hlen.
  subst tmp; repeat split; auto.
  rewrite slice_drop_end_app; reflexivity.
Qed.


Lemma find_root_some (s : str) (m : morpheme) :
  find_root s = Some m -> In m roots /\ includes (pattern m) s = true.
Proof.
  unfold find_root; intros H; apply find_some in H as [Hin Hm].
  apply (proj1 (sort_by_len_desc_In _ _)) in Hin; auto.
Qed.


Lemma count_prefixes_app (l1 l2 : list component) :
  count_prefixes (l1 ++ l2) = count_prefixes l1 + count_prefixes l2.
Proof. unfold count_prefixes; rewrite filter_app, length_app; reflexivity. Qed.

(** Invariant of the prefix loop: the prefixes it adds come from the
    table, spell the front of the window, and at most 2 are ever held. *)
Lemma prefix_loop_inv (fuel : nat) : forall found comps rem,
  let '(cs, r) := prefix_loop fuel found comps rem in
  exists ps, cs = comps ++ ps /\ Forall (from_table PREFIX prefixes) ps
    /\ rem = concat (map part ps) ++ r
    /\ count_prefixes cs <= Nat.max (count_prefixes comps) 2.
Proof.
  induction fuel as [|fuel IH]; intros found comps rem; simpl.
  - exists []; rewrite app_nil_r; repeat split; auto; lia.
  - destruct (found && (count_prefixes comps <? 2)) eqn:Hc.
    2: { exists []; rewrite app_nil_r; repeat split; auto; lia. }
    apply andb_true_iff in Hc as [_ Hc]; apply Nat.ltb_lt in Hc.
    destruct (find_prefix rem) as [p|] eqn:Hp.
    + specialize (IH true (comps ++ [to_component PREFIX p])
                    (skipn (length (pattern p)) rem)).
      destruct (prefix_loop fuel true _ _) as [cs r].
      destruct IH as (ps & -> & Hps & Hrem & Hcnt).
      apply find_prefix_some in Hp as (Hin & Hsplit & _).
      exists (to_component PREFIX p :: ps).
      rewrite <- app_assoc; repeat split; auto.
      * constructor; [exists p; auto | exact Hps].
      * simpl; rewrite <- app_assoc, <- Hrem; exact Hsplit.
      * assert (H1 : count_prefixes [to_component PREFIX p] = 1) by reflexivity.
        revert Hcnt; rewrite !count_prefixes_app, H1; lia.
    + specialize (IH false comps rem).
      destruct (prefix_loop fuel false _ _) as [cs r].
      destruct IH as (ps & -> & Hps & Hrem & Hcnt).
      exists ps; repeat split; auto.
Qed.

Lemma suffix_loop_false (fuel : nat) (fs : list component) (tmp : str) :
  suffix_loop fuel false fs tmp = (fs, tmp).
Proof. destruct fuel; reflexivity. Qed.

(** Invariant of the suffix loop: the suffixes it prepends come from the
    table and spell the tail of the window in word order, every removal
    leaves at least 2 characters, at most 2 suffixes are held, and when
    the loop runs long enough and stops short of 2, no suffix applies to
    what is left. *)
Lemma suffix_loop_inv (fuel : nat) : forall found fs0 tmp,
  let '(fs, t) := suffix_loop fuel found fs0 tmp in
  exists ss, fs = ss ++ fs0 /\ Forall (from_table SUFFIX suffixes) ss
    /\ tmp = t ++ concat (map part ss)
    /\ (ss <> [] -> 2 <= length t)
    /\ length fs <= Nat.max (length fs0) 2
    /\ (found = true -> 2 - length fs0 < fuel -> length fs < 2 -> find_suffix t = None).
Proof.
  induction fuel as [|fuel IH]; intros found fs0 tmp; simpl.
  - exists []; rewrite app_nil_r; repeat split; auto; try lia; congruence.
  - destruct (found && (length fs0 <? 2)) eqn:Hc.
    2: { exists []; rewrite app_nil_r; repeat split; auto; try lia; try congruence.
         intros -> _ Hl; simpl in Hc; apply Nat.ltb_ge in Hc; lia. }
    apply andb_true_iff in Hc as [-> Hc]; apply Nat.ltb_lt in Hc.
    destruct (find_suffix tmp) as [s|] eqn:Hs.
    + specialize (IH true (to_component SUFFIX s :: fs0)
                    (slice_drop_end (length (pattern s)) tmp)).
      destruct (suffix_loop fuel true _ _) as [fs t].
      destruct IH as (ss & -> & Hss & Htmp & Hlen & Hcnt & Hmax).
      apply find_suffix_some in Hs as (Hin & Hsplit & Hl).
      exists (ss ++ [to_component SUFFIX s]).
      rewrite <- app_assoc; repeat split; auto.
      * apply Forall_app; split; auto; constructor; [exists s; auto | constructor].
      * rewrite map_app, concat_app; simpl; rewrite app_nil_r, app_assoc, <- Htmp.
        exact Hsplit.
      * intros _; destruct ss as [|c ss].
        -- simpl in Htmp; rewrite app_nil_r in Htmp; subst t.
           rewrite Hsplit in Hl; rewrite length_app in Hl; lia.
        -- apply Hlen; discriminate.
      * revert Hcnt; simpl; lia.
      * intros _ Hf Hl2; apply Hmax; auto; cbn [length].
        destruct (length fs0) as [|[|n]]; simpl in Hf |- *; lia.
    + rewrite suffix_loop_false; exists []; rewrite app_nil_r.
      repeat split; auto; try lia; congruence.
Qed.

(** Three rounds of the prefix loop already reach its exit: more fuel does
    not change the result. *)
Lemma prefix_loop_fuel (n : nat) (rem : str) :
  prefix_loop (3 + n) true [] rem = prefix_loop 3 true [] rem.
Proof.
  simpl.
  destruct (find_prefix rem) as [p1|]; simpl.
  - destruct (find_prefix (skipn (length (pattern p1)) rem)) as [p2|]; simpl.
    + destruct n; reflexivity.
    + destruct n; reflexivity.
  - destruct n; reflexivity.
Qed.

Lemma suffix_loop_fuel (n : nat) (tmp : str) :
  suffix_loop (3 + n) true [] tmp = suffix_loop 3 true [] tmp.
Proof.
  simpl.
  destruct (find_suffix tmp) as [s1|]; simpl.
  - destruct (find_suffix (slice_drop_end (length (pattern s1)) tmp)) as [s2|]; simpl.
    + destruct n; reflexivity.
    + destruct n; reflexivity.
  - destruct n; reflexivity.
Qed.

Lemma analyzeWordRoot_stages (word : str) (origin : option str) :
  exists ps remainingWord ss tempWord,
    prefix_loop 3 true [] (toLowerCase word) = (ps, remainingWord) /\
    suffix_loop 3 true [] remainingWord = (ss, tempWord) /\
    components (analyzeWordRoot word origin) =
      ps ++ (match find_root tempWord with
             | Some r => [to_component ROOT r]
             | None => match find_root (toLowerCase word) with
                       | Some r => [to_component ROOT r]
                       | None => []
                       end
             end) ++ ss.
Proof.
  unfold analyzeWordRoot.
  destruct (prefix_loop 3 true [] (toLowerCase word)) as [ps remainingWord] eqn:E1.
  destruct (suffix_loop 3 true [] remainingWord) as [ss tempWord] eqn:E2.
  exists ps, remainingWord, ss, tempWord; repeat split.
  cbv beta iota zeta; rewrite E2; reflexivity.
Qed.

Lemma filter_type_from_table (t t' : component_type) (table : list morpheme)
    (l : list component) :
  Forall (from_table t table) l ->
  filter (fun c => component_type_eqb (type c) t') l =
  if component_type_eqb t t' then l else [].
Proof.
  induction 1 as [|c l (m & _ & ->) _ IH]; simpl.
  - destruct (component_type_eqb t t'); reflexivity.
  - rewrite IH; destruct (component_type_eqb t t'); reflexivity.
Qed.

Lemma prefix_loop_none (n : nat) (rem : str) :
  find_prefix rem = None -> prefix_loop (S n) true [] rem = ([], rem).
Proof. intros H; simpl; rewrite H; destruct n; reflexivity. Qed.

Lemma suffix_loop_none (n : nat) (tmp : str) :
  find_suffix tmp = None -> suffix_loop (S n) true [] tmp = ([], tmp).
Proof. intros H; simpl; rewrite H; destruct n; reflexivity. Qed.

(** ** Claims about the word-root analyzer *)
















(** C6: [hasContent] holds exactly when there is a component or an origin;
    a word containing no prefix, root or suffix pattern, analysed without
    an origin, has no component and no content. *)
Theorem analyzeWordRoot_hasContent (word : str) (origin : option str) :
  (hasContent (analyzeWordRoot word origin) = true <->
   components (analyzeWordRoot word origin) <> [] \/ origin <> None) /\
  ((forall m, In m (prefixes ++ roots ++ suffixes) ->
              includes (pattern m) (toLowerCase word) = false) ->
   origin = None ->
   components (analyzeWordRoot word origin) = [] /\
   hasContent (analyzeWordRoot word origin) = false).
Proof.
  split.
  - unfold analyzeWordRoot.
    destruct (prefix_loop 3 true [] (toLowerCase word)) as [ps rem].
    destruct (suffix_loop 3 true [] rem) as [ss t]; cbn [components hasContent].
    destruct (ps ++ _ ++ ss) as [|c cs]; destruct origin as [o|]; simpl;
      split; intuition congruence.
  - intros Hnone ->.
    set (low := toLowerCase word) in *.
    assert (Hp : find_prefix low = None).
    { destruct (find_prefix low) as [m|] eqn:E; auto.
      apply find_prefix_some in E as (Hin & Hsplit & _).
      assert (Hi : includes (pattern m) low = true).
      { apply includes_starts_with, starts_with_app; eauto. }
      rewrite Hnone in Hi; [discriminate | apply in_or_app; auto]. }
    assert (Hs : find_suffix low = None).
    { destruct (find_suffix low) as [m|] eqn:E; auto.
      apply find_suffix_some in E as (Hin & Hsplit & _).
      assert (Hi : includes (pattern m) low = true).
      { apply includes_ends_with, ends_with_app; eauto. }
      rewrite Hnone in Hi; [discriminate | rewrite !in_app_iff; auto]. }
    assert (Hr : find_root low = None).
    { destruct (find_root low) as [m|] eqn:E; auto.
      apply find_root_some in E as (Hin & Hi).
      rewrite Hnone in Hi; [discriminate | rewrite !in_app_iff; auto]. }
    unfold analyzeWordRoot; fold low.
    rewrite (prefix_loop_none 2 low Hp), (suffix_loop_none 2 low Hs), Hr.
    split; reflexivity.
Qed.

(** C7: whatever the word, at most 2 prefix components and at most 2
    suffix components. *)
Theorem analyzeWordRoot_affix_caps (word : str) (origin : option str) :
  length (filter (fun c => component_type_eqb (type c) PREFIX)
            (components (analyzeWordRoot word origin))) <= 2 /\
  length (filter (fun c => component_type_eqb (type c) SUFFIX)
            (components (analyzeWordRoot word origin))) <= 2.
Proof.
  destruct (analyzeWordRoot_stages word origin) as (ps & rem & ss & t & Hp & Hs & ->).
  pose proof (prefix_loop_inv 3 true [] (toLowerCase word)) as Hpi; rewrite Hp in Hpi.
  destruct Hpi as (ps' & Hps' & Hpfrom & _ & Hpcnt); simpl in Hps'; subst ps'.
  pose proof (suffix_loop_inv 3 true [] rem) as Hsi; rewrite Hs in Hsi.
  destruct Hsi as (ss' & Hss' & Hsfrom & _ & _ & Hscnt & _).
  rewrite app_nil_r in Hss'; subst ss'.
  assert (Hroot : forall t', t' <> ROOT ->
    filter (fun c => component_type_eqb (type c) t')
      (match find_root t with
       | Some r => [to_component ROOT r]
       | None => match find_root (toLowerCase word) with
                 | Some r => [to_component ROOT r]
                 | None => []
                 end
       end) = []).
  { intros t' Ht'; destruct (find_root t); [|destruct (find_root (toLowerCase word))];
      simpl; try reflexivity; destruct t'; simpl; congruence. }
  rewrite !filter_app, !(filter_type_from_table _ _ _ _ Hpfrom),
    !(filter_type_from_table _ _ _ _ Hsfrom), !Hroot by discriminate; simpl.
  unfold count_prefixes in Hpcnt; rewrite (filter_type_from_table _ _ _ _ Hpfrom) in Hpcnt.
  simpl in *; rewrite !app_nil_r; split; lia.
Qed.

(** ** Facts about the dictionary service *)

Lemma NoDup_snoc {A : Type} (l : list A) (x : A) :
  NoDup l -> ~ In x l -> NoDup (l ++ [x]).
Proof.
  induction l as [|y l IH]; simpl; intros Hn Hx.
  - constructor; [intros []|constructor].
  - inversion Hn as [|? ? Hy Hl]; subst; constructor.
    + rewrite in_app_iff; intros [H|[H|[]]]; [contradiction | apply Hx; left; auto].
    + apply IH; auto.
Qed.

(** [utf16_length] counts as [String.prototype.length] does: a Chinese
    character is 3 bytes of UTF-8 but 1 code unit of UTF-16, a character
    outside the Basic Multilingual Plane 4 bytes and 2 code units. *)
Example utf16_length_examples :
  utf16_length (js "苹果苹果苹果苹果苹果苹果苹果苹果苹果苹果") = 20 /\
  length (js "苹果苹果苹果苹果苹果苹果苹果苹果苹果苹果") = 60 /\
  utf16_length (js "a😀") = 3.
Proof. vm_compute; repeat split. Qed.

Lemma collect_alternatives_inv (ms0 : list tr_match) (lp : str) :
  forall ms seen alts,
    incl ms ms0 -> length alts < 5 ->
    (forall a, In a alts -> In (toLowerCase a) seen) -> In lp seen ->
    NoDup (map toLowerCase alts) -> ~ In lp (map toLowerCase alts) ->
    Forall (good_alternative ms0) alts ->
    alternatives_ok ms0 lp (collect_alternatives ms seen alts).
Proof.
  induction ms as [|m ms IH]; intros seen alts Hincl Hlen Hseen Hlp Hnd Hnlp Hgood;
    cbn [collect_alternatives].
  { repeat split; auto; lia. }
  assert (Hincl' : incl ms ms0) by (intros x Hx; apply Hincl; right; exact Hx).
  destruct (translation m) as [t|] eqn:Et; [|apply IH; auto].
  destruct (quality m) as [q|] eqn:Eq; [|apply IH; auto].
  destruct (negb (is_nil t) && (50 <? q)%Z) eqn:Hq; [|apply IH; auto].
  destruct (negb (mem (toLowerCase (trim t)) seen) && (utf16_length (trim t) <? 50)) eqn:Hn;
    [|apply IH; auto].
  apply andb_true_iff in Hq as [_ Hq]; apply Z.ltb_lt in Hq.
  apply andb_true_iff in Hn as [Hn Hl]; apply Nat.ltb_lt in Hl.
  apply negb_true_iff in Hn.
  assert (Hns : ~ In (toLowerCase (trim t)) seen)
    by (intros H; apply mem_true in H; congruence).
  assert (Hnd' : NoDup (map toLowerCase (alts ++ [trim t]))).
  { rewrite map_app; apply NoDup_snoc; auto.
    intros H; apply in_map_iff in H as (a & Ha & Hin); rewrite <- Ha in Hns.
    apply Hns, Hseen, Hin. }
  assert (Hnlp' : ~ In lp (map toLowerCase (alts ++ [trim t]))).
  { rewrite map_app, in_app_iff; intros [H|[H|[]]]; [contradiction|].
    subst; contradiction. }
  assert (Hgood' : Forall (good_alternative ms0) (alts ++ [trim t])).
  { apply Forall_app; split; auto; constructor; [|constructor].
    split; auto; exists m, t, q; repeat split; auto; apply Hincl; left; auto. }
  destruct (5 <=? length (alts ++ [trim t])) eqn:H5.
  - repeat split; auto; rewrite length_app; simpl; lia.
  - apply Nat.leb_gt in H5; apply IH; auto.
    + intros a Ha; apply in_app_iff in Ha as [Ha|[<-|[]]]; [right; auto | left; auto].
    + right; exact Hlp.
Qed.

Lemma In_firstn_In {A : Type} (n : nat) (l : list A) (x : A) :
  In x (firstn n l) -> In x l.
Proof. intros H; rewrite <- (firstn_skipn n l); apply in_or_app; left; exact H. Qed.

Lemma insert_by_order_In (x y : word_form) (l : list word_form) :
  In y (insert_by_order x l) <-> x = y \/ In y l.
Proof.
  induction l as [|z l IH]; simpl.
  - tauto.
  - destruct (wf_order x <? wf_order z); simpl; rewrite ?IH; tauto.
Qed.

Lemma sort_by_order_In (y : word_form) (l : list word_form) :
  In y (sort_by_order l) <-> In y l.
Proof.
  unfold sort_by_order.
  enough (H : forall acc, In y (fold_left (fun acc x => insert_by_order x acc) l acc)
                          <-> In y l \/ In y acc) by (rewrite H; simpl; tauto).
  induction l as [|x l IH]; intros acc; simpl.
  - tauto.
  - rewrite IH, insert_by_order_In; tauto.
Qed.

(** The filtering loop only adds forms whose lowercased word is not in
    [seenWords], and every added word joins [seenWords]. *)
Lemma filter_loop_excludes (x : str) : forall results seenWords seenPOS forms,
  In x seenWords -> Forall (fun f => lower_word f <> x) forms ->
  Forall (fun f => lower_word f <> x) (filter_loop results seenWords seenPOS forms).
Proof.
  induction results as [|[r|] rs IH]; intros sw sp forms Hx Hf; simpl; auto.
  destruct (negb (mem (toLowerCase (wf_word r)) sw)) eqn:Hm; [|apply IH; auto].
  destruct (negb (mem (wf_partOfSpeech r) sp) || (length forms <? 4)); apply IH; auto.
  - right; exact Hx.
  - apply Forall_app; split; auto; constructor; [|constructor].
    unfold lower_word; intros Heq; apply negb_true_iff in Hm; rewrite Heq in Hm.
    apply mem_true in Hx; congruence.
Qed.

Lemma filter_loop_labels : forall results seenWords seenPOS forms,
  (forall f, In f forms -> In (wf_partOfSpeech f) seenPOS) ->
  labels_fresh_after_threshold forms ->
  labels_fresh_after_threshold (filter_loop results seenWords seenPOS forms).
Proof.
  induction results as [|[r|] rs IH]; intros sw sp forms Hsp Hfresh; simpl; auto.
  destruct (negb (mem (toLowerCase (wf_word r)) sw)); [|apply IH; auto].
  destruct (negb (mem (wf_partOfSpeech r) sp) || (length forms <? 4)) eqn:Hc;
    [|apply IH; auto].
  apply IH.
  - intros f Hf; apply in_app_iff in Hf as [Hf|[<-|[]]]; [right; auto | left; auto].
  - intros i f Hi H4.
    destruct (Nat.lt_ge_cases i (length forms)) as [Hlt|Hge].
    + rewrite nth_error_app1 in Hi by exact Hlt.
      rewrite firstn_app, (proj2 (Nat.sub_0_le i (length forms))) by lia.
      simpl; rewrite app_nil_r; exact (Hfresh i f Hi H4).
    + rewrite nth_error_app2 in Hi by exact Hge.
      destruct (i - length forms) as [|k] eqn:Hk; [|destruct k; discriminate].
      injection Hi as <-.
      replace i with (length forms) by lia; rewrite firstn_app, Nat.sub_diag, firstn_all.
      simpl; rewrite app_nil_r.
      assert (Hnew : mem (wf_partOfSpeech r) sp = false).
      { apply orb_true_iff in Hc as [Hc|Hc]; [apply negb_true_iff; exact Hc|].
        apply Nat.ltb_lt in Hc; lia. }
      intros Hin; apply in_map_iff in Hin as (g & Hg & Hgin).
      apply Hsp in Hgin; rewrite Hg in Hgin; apply mem_true in Hgin; congruence.
Qed.

Lemma mem_ext (x : str) (l1 l2 : list str) :
  (forall y, In y l1 <-> In y l2) -> mem x l1 = mem x l2.
Proof.
  intros H; destruct (mem x l1) eqn:E1, (mem x l2) eqn:E2; auto.
  - apply mem_true in E1; apply (proj1 (H x)), mem_true in E1; congruence.
  - apply mem_true in E2; apply (proj2 (H x)), mem_true in E2; congruence.
Qed.

(** Appending one result to the input of the filtering loop: while
    [seenWords] holds the query and the kept words and [seenPOS] the kept
    labels, the new result is judged against the forms kept so far. *)
Lemma filter_loop_snoc (tw : str) : forall results sw sp forms o,
  (forall y, In y sw <-> In y (tw :: map lower_word forms)) ->
  (forall y, In y sp <-> In y (map wf_partOfSpeech forms)) ->
  filter_loop (results ++ [o]) sw sp forms =
  match o with
  | None => filter_loop results sw sp forms
  | Some r =>
      if negb (mem (lower_word r) (tw :: map lower_word (filter_loop results sw sp forms)))
         && (negb (mem (wf_partOfSpeech r)
                     (map wf_partOfSpeech (filter_loop results sw sp forms)))
             || (length (filter_loop results sw sp forms) <? 4))
      then filter_loop results sw sp forms ++ [r]
      else filter_loop results sw sp forms
  end.
Proof.
  induction results as [|[r'|] rs IH]; intros sw sp forms o Hsw Hsp.
  - destruct o as [r|]; cbn [app filter_loop]; [|reflexivity].
    rewrite (mem_ext _ sw _ Hsw), (mem_ext _ sp _ Hsp).
    change (toLowerCase (wf_word r)) with (lower_word r).
    destruct (negb (mem (lower_word r) _)); [|reflexivity].
    destruct (_ || _); reflexivity.
  - cbn [app filter_loop].
    destruct (negb (mem (toLowerCase (wf_word r')) sw)); [|apply IH; auto].
    destruct (negb (mem (wf_partOfSpeech r') sp) || (length forms <? 4)); apply IH; auto.
    + intros y; cbn [In]; rewrite Hsw, map_app, in_app_iff; simpl; unfold lower_word; tauto.
    + intros y; cbn [In]; rewrite Hsp, map_app, in_app_iff; simpl; tauto.
  - cbn [app filter_loop]; apply IH; auto.
Qed.

Lemma filter_loop_nones : forall results seenWords seenPOS forms,
  Forall (fun o => o = None) results -> filter_loop results seenWords seenPOS forms = forms.
Proof. induction 1; simpl; auto; subst; auto. Qed.

Lemma fetchWordFamily_no_verified (verify : verifier) (word : str) :
  (forall c, In c (generatePotentialForms (toLowerCase (trim word))) ->
             verify c (toLowerCase (trim word)) = None) ->
  forms (fetchWordFamily verify word) = [] /\
  wfam_hasContent (fetchWordFamily verify word) = false.
Proof.
  intros Hrej; unfold fetchWordFamily.
  destruct (includes (js " ") (toLowerCase (trim word))); [split; reflexivity|].
  unfold filter_forms; rewrite filter_loop_nones; [split; reflexivity|].
  apply Forall_map, Forall_forall; exact Hrej.
Qed.

(** ** Claims about the dictionary service *)

(** C1 (as stated, refuted): a Network error of the definitions fetch is
    not propagated: with the dictionary API unreachable, [lookupWord]
    still succeeds, with no English definitions. *)
Lemma lookupWord_definitions_network_error_swallowed :
  fetchEnglishDefinition dictionary_offline_provider (trim (js "hello")) = Err NETWORK_ERROR /\
  lookupWord dictionary_offline_provider (js "hello") =
    Ok {| lr_word := js "hello"; englishDefinitions := [];
          chineseTranslation := {| primary := js "你好"; alternatives := [] |};
          isPhrase := false |}.
Proof. split; vm_compute; reflexivity. Qed.

(** C1 (amended): every error of the definitions fetch (NotFound, Network,
    Decoding) is absorbed, [lookupWord] continuing with no English
    definitions; every error of the translation fetch is propagated as is;
    and the translation fetch never reports NotFound. *)
Theorem lookupWord_error_handling (net : provider) (word : str) :
  fetchChineseTranslation net (trim word) <> Err WORD_NOT_FOUND /\
  match fetchChineseTranslation net (trim word) with
  | Err e => lookupWord net word = Err e
  | Ok t =>
      exists r, lookupWord net word = Ok r /\ chineseTranslation r = t /\
        englishDefinitions r =
          match fetchEnglishDefinition net (trim word) with
          | Ok data => data
          | Err _ => []
          end
  end.
Proof.
  split.
  - unfold fetchChineseTranslation.
    destruct (translation_api net (trim (trim word)) en_zh) as [|status [data|]];
      try discriminate;
      destruct (negb (response_ok status)); try discriminate.
    destruct (translatedText data) as [p|]; try discriminate.
    destruct (is_nil p); discriminate.
  - unfold lookupWord; cbv zeta.
    destruct (fetchChineseTranslation net (trim word)) as [t|e].
    + destruct (fetchEnglishDefinition net (trim word)) as [data|[]];
        eexists; (split; [cbv beta iota; reflexivity | split; reflexivity]).
    + destruct (fetchEnglishDefinition net (trim word)) as [data|[]]; reflexivity.
Qed.

(** C2 (as stated, refuted): before the threshold several forms with the
    same label are kept: three "Noun" forms all pass the filter. *)
Lemma filter_forms_same_label_kept :
  map wf_partOfSpeech
    (filter_forms (js "kind")
       [Some (noun_form "kindness"); Some (noun_form "kindliness");
        Some (noun_form "kindhood")])
  = [js "Noun"; js "Noun"; js "Noun"].
Proof. vm_compute; reflexivity. Qed.

(** C2 (amended): the filter takes the verification results one at a
    time, in order.  A rejected candidate changes nothing.  A verified form
    is kept exactly when its lowercased word is neither the query nor the
    word of a kept form, and either fewer than 4 forms are kept, whatever
    its label, or its label ([partOfSpeech]) is not the label of a kept
    form.  So from the fifth kept form on, every kept label is new. *)
Theorem filter_forms_label_policy (trimmedWord : str) (results : list (option word_form)) :
  labels_fresh_after_threshold (filter_forms trimmedWord results) /\
  filter_forms trimmedWord (results ++ [None]) = filter_forms trimmedWord results /\
  (forall r, admits trimmedWord (filter_forms trimmedWord results) r ->
     filter_forms trimmedWord (results ++ [Some r]) = filter_forms trimmedWord results ++ [r]) /\
  (forall r, ~ admits trimmedWord (filter_forms trimmedWord results) r ->
     filter_forms trimmedWord (results ++ [Some r]) = filter_forms trimmedWord results).
Proof.
  assert (Hsw : forall y, In y [trimmedWord] <-> In y (trimmedWord :: map lower_word [])).
  { intros y; reflexivity. }
  assert (Hsp : forall y, In y (@nil str) <-> In y (map wf_partOfSpeech [])).
  { intros y; reflexivity. }
  assert (Hcond : forall kept r,
            negb (mem (lower_word r) (trimmedWord :: map lower_word kept))
            && (negb (mem (wf_partOfSpeech r) (map wf_partOfSpeech kept)) || (length kept <? 4))
            = true <-> admits trimmedWord kept r).
  { intros kept r; unfold admits.
    rewrite andb_true_iff, orb_true_iff, !negb_true_iff, Nat.ltb_lt.
    split.
    - intros [H1 H2]; split.
      + intros H; apply mem_true in H; congruence.
      + destruct H2 as [H2|H2]; [right | left; exact H2].
        intros H; apply mem_true in H; congruence.
    - intros [H1 H2]; split.
      + destruct (mem _ _) eqn:E; auto; apply mem_true in E; contradiction.
      + destruct H2 as [H2|H2]; [right; exact H2 | left].
        destruct (mem _ _) eqn:E; auto; apply mem_true in E; contradiction. }
  unfold filter_forms; split; [|split; [|split]].
  - apply (filter_loop_labels results [trimmedWord] [] []).
    + intros f [].
    + intros i f Hi; destruct i; simpl in Hi; discriminate.
  - exact (filter_loop_snoc trimmedWord results [trimmedWord] [] [] None Hsw Hsp).
  - intros r Hr; rewrite (filter_loop_snoc trimmedWord results [trimmedWord] [] [] (Some r) Hsw Hsp).
    rewrite (proj2 (Hcond _ r) Hr); reflexivity.
  - intros r Hr; rewrite (filter_loop_snoc trimmedWord results [trimmedWord] [] [] (Some r) Hsw Hsp).
    destruct (negb _ && _) eqn:E; [|reflexivity].
    exfalso; apply Hr, (proj1 (Hcond _ r)), E.
Qed.

(** C3: the alternatives returned by [fetchChineseTranslation] are at most
    5, each offered by a match of quality above 50, shorter than 50
    characters, pairwise distinct ignoring case and distinct from the
    primary ignoring case; for the matches Hi/90, Hi/60, 60 x's/95,
    Hey/51 and primary "Hello", "Hey" appears once, "Hi" at most once and
    the 60-character string not at all. *)
Theorem fetchChineseTranslation_alternatives (net : provider) (text : str)
    (status : Z) (data : tr_data) (t : translation_result)
    (Hresp : translation_api net (trim text) en_zh = HttpResponse status (Some data))
    (Ht : fetchChineseTranslation net text = Ok t) :
  alternatives_ok (match matches data with Some ms => ms | None => [] end)
    (toLowerCase (primary t)) (alternatives t) /\
  match fetchChineseTranslation hi_hey_provider (js "Hello") with
  | Ok r =>
      count_occ (list_eq_dec ascii_dec) (alternatives r) (js "Hey") = 1 /\
      count_occ (list_eq_dec ascii_dec) (alternatives r) (js "Hi") <= 1 /\
      ~ In (repeat "x"%char 60) (alternatives r)
  | Err _ => False
  end.
Proof.
  split.
  - unfold fetchChineseTranslation in Ht; rewrite Hresp in Ht.
    destruct (negb (response_ok status)); [discriminate|].
    destruct (translatedText data) as [p|]; [|discriminate].
    destruct (is_nil p); [discriminate|].
    injection Ht as <-; cbn [primary alternatives].
    destruct (matches data) as [ms|].
    + apply (collect_alternatives_inv ms (toLowerCase p) ms [toLowerCase p] []).
      * apply incl_refl.
      * simpl; lia.
      * intros a [].
      * left; reflexivity.
      * constructor.
      * intros [].
      * constructor.
    + unfold alternatives_ok; simpl; repeat split; [lia | constructor | constructor | intros []].
  - vm_compute.
    split; [reflexivity | split; [lia | intros [H|[H|[]]]; discriminate]].
Qed.

(** C8: no form returned by [fetchWordFamily] has, ignoring case, the
    (trimmed) query word as its word, whatever the verifier returns. *)
Theorem fetchWordFamily_excludes_query (verify : verifier) (word : str) :
  Forall (fun f => toLowerCase (wf_word f) <> toLowerCase (trim word))
    (forms (fetchWordFamily verify word)).
Proof.
  unfold fetchWordFamily.
  destruct (includes (js " ") (toLowerCase (trim word))); [constructor|].
  cbn [forms]; apply Forall_forall; intros f Hf.
  apply In_firstn_In in Hf; apply (proj1 (sort_by_order_In _ _)) in Hf.
  unfold filter_forms in Hf.
  pose proof (filter_loop_excludes (toLowerCase (trim word))
                (map (fun form => verify form (toLowerCase (trim word)))
                   (generatePotentialForms (toLowerCase (trim word))))
                [toLowerCase (trim word)] [] [] (or_introl eq_refl) (Forall_nil _)) as H.
  rewrite Forall_forall in H; exact (H f Hf).
Qed.

(** C9: when the verifier rejects every candidate, [fetchWordFamily]
    returns no form and [hasContent = false]; in particular when every
    dictionary request of the verification fails (rejected fetch, HTTP
    error or unparsable body). *)
Theorem fetchWordFamily_all_rejected (verify : verifier) (word : str)
    (Hrej : forall c, In c (generatePotentialForms (toLowerCase (trim word))) ->
            verify c (toLowerCase (trim word)) = None) :
  (forms (fetchWordFamily verify word) = [] /\
   wfam_hasContent (fetchWordFamily verify word) = false) /\
  (forall net : provider,
     (forall c, match dictionary_api net c with
                | FetchRejected => True
                | HttpResponse status body => response_ok status = false \/ body = None
                end) ->
     forms (fetchWordFamily_live net word) = [] /\
     wfam_hasContent (fetchWordFamily_live net word) = false).
Proof.
  split; [exact (fetchWordFamily_no_verified verify word Hrej)|].
  intros net Hnet; apply fetchWordFamily_no_verified; intros c _.
  specialize (Hnet c); unfold verifyWordForm.
  destruct (dictionary_api net c) as [|status body]; [reflexivity|].
  destruct Hnet as [Hs | ->]; [rewrite Hs; reflexivity|].
  destruct (negb (response_ok status)); reflexivity.
Qed.

(** C10: when the trimmed query contains a space, a successful [lookupWord]
    sets [isPhrase], whatever the definitions fetch returned. *)
Theorem lookupWord_space_isPhrase (net : provider) (word : str) (r : lookup_result)
    (Hsp : includes (js " ") (trim word) = true)
    (Hr : lookupWord net word = Ok r) :
  isPhrase r = true.
Proof.
  unfold lookupWord in Hr; cbv zeta in Hr.
  destruct (fetchChineseTranslation net (trim word)) as [t|e];
    destruct (fetchEnglishDefinition net (trim word)) as [data|[]];
    cbv beta iota in Hr; try discriminate;
    injection Hr as <-; cbn [isPhrase];
    change (js " ") with [" "%char] in Hsp; rewrite Hsp; reflexivity.
Qed.

(** ** Witnesses *)

Lemma analyzeWordRoot_hasContent_witness :
  components (analyzeWordRoot (js "xqz") None) = [] /\
  hasContent (analyzeWordRoot (js "xqz") None) = false.
Proof.
  apply (proj2 (analyzeWordRoot_hasContent (js "xqz") None)); [|reflexivity].
  intros m Hm.
  assert (Hall : forallb (fun m => negb (includes (pattern m) (toLowerCase (js "xqz"))))
                   (prefixes ++ roots ++ suffixes) = true) by (vm_compute; reflexivity).
  rewrite forallb_forall in Hall; apply negb_true_iff, Hall, Hm.
Defined.

Lemma filter_forms_label_policy_witness :
  admits (js "kind")
    (filter_forms (js "kind")
       [Some (noun_form "kindness"); None; Some (noun_form "Kindness")])
    (noun_form "kindly") /\
  filter_forms (js "kind")
    ([Some (noun_form "kindness"); None; Some (noun_form "Kindness")]
     ++ [Some (noun_form "kindly")])
  = [noun_form "kindness"; noun_form "kindly"].
Proof.
  assert (H : admits (js "kind")
                (filter_forms (js "kind")
                   [Some (noun_form "kindness"); None; Some (noun_form "Kindness")])
                (noun_form "kindly")).
  { split.
    - vm_compute; intros H; repeat destruct H as [H|H]; try discriminate; contradiction.
    - left; apply Nat.ltb_lt; vm_compute; reflexivity. }
  split; [exact H|].
  rewrite (proj1 (proj2 (proj2 (filter_forms_label_policy (js "kind") _))) _ H).
  vm_compute; reflexivity.
Defined.

Lemma fetchChineseTranslation_alternatives_witness :
  translation_api hi_hey_provider (trim (js "hello")) en_zh = HttpResponse 200%Z (Some hi_hey_data) /\
  fetchChineseTranslation hi_hey_provider (js "hello") = Ok hello_translation /\
  alternatives_ok (match matches hi_hey_data with Some ms => ms | None => [] end)
    (toLowerCase (js "Hello")) [js "Hi"; js "Hey"].
Proof.
  split; [reflexivity|].
  split; [vm_compute; reflexivity|].
  exact (proj1 (fetchChineseTranslation_alternatives hi_hey_provider (js "hello") 200%Z
                  hi_hey_data hello_translation eq_refl
                  (ltac:(vm_compute; reflexivity)))).
Defined.

Lemma fetchWordFamily_all_rejected_witness :
  forms (fetchWordFamily (fun _ _ => None) (js "create")) = [] /\
  wfam_hasContent (fetchWordFamily (fun _ _ => None) (js "create")) = false.
Proof.
  apply (proj1 (fetchWordFamily_all_rejected (fun _ _ => None) (js "create")
                  (fun c _ => eq_refl))).
Defined.

Lemma lookupWord_space_isPhrase_witness :
  includes (js " ") (trim (js "piece of cake")) = true /\
  match lookupWord phrase_provider (js "piece of cake") with
  | Ok r => englishDefinitions r <> [] /\ isPhrase r = true
  | Err _ => False
  end.
Proof.
  split; [vm_compute; reflexivity|].
  destruct (lookupWord phrase_provider (js "piece of cake")) as [r|e] eqn:E.
  - split.
    + pose proof E as E'; vm_compute in E'; injection E' as <-; discriminate.
    + apply (lookupWord_space_isPhrase phrase_provider (js "piece of cake") r);
        [vm_compute; reflexivity | exact E].
  - vm_compute in E; discriminate.
Defined.

(** ** Facts about the entry helpers *)

Lemma set_add_spec (s : list str) (x : str) :
  NoDup s -> NoDup (set_add s x) /\ (forall y, In y (set_add s x) <-> In y s \/ y = x).
Proof.
  intros Hs; unfold set_add.
  destruct (mem x s) eqn:Hm.
  - apply mem_true in Hm; split; auto.
    intros y; split; [auto|]; intros [H| ->]; auto.
  - split.
    + apply NoDup_snoc; auto; intros H; apply mem_true in H; congruence.
    + intros y; rewrite in_app_iff; simpl; intuition.
Qed.

Lemma fold_set_add_spec (ss : list str) : forall acc,
  NoDup acc ->
  NoDup (fold_left set_add ss acc) /\
  (forall y, In y (fold_left set_add ss acc) <-> In y acc \/ In y ss).
Proof.
  induction ss as [|x ss IH]; intros acc Hacc; simpl.
  - split; auto; intros y; tauto.
  - destruct (set_add_spec acc x Hacc) as [Hnd Hin].
    destruct (IH _ Hnd) as [Hnd' Hin']; split; auto.
    intros y; rewrite Hin', Hin; intuition.
Qed.

Lemma add_synonyms_spec (acc : list str) (o : option (list str)) :
  NoDup acc ->
  NoDup (add_synonyms acc o) /\
  (forall y, In y (add_synonyms acc o) <-> In y acc \/ In y (opt_list o)).
Proof.
  destruct o as [ss|]; simpl; intros Hacc.
  - apply fold_set_add_spec; auto.
  - split; auto; intros y; tauto.
Qed.

Lemma fold_definitions_spec (ds : list definition_json) : forall acc,
  NoDup acc ->
  NoDup (fold_left (fun acc d => add_synonyms acc (def_synonyms d)) ds acc) /\
  (forall y, In y (fold_left (fun acc d => add_synonyms acc (def_synonyms d)) ds acc) <->
             In y acc \/ In y (flat_map (fun d => opt_list (def_synonyms d)) ds)).
Proof.
  induction ds as [|d ds IH]; intros acc Hacc; simpl.
  - split; auto; intros y; tauto.
  - destruct (add_synonyms_spec acc (def_synonyms d) Hacc) as [Hnd Hin].
    destruct (IH _ Hnd) as [Hnd' Hin']; split; auto.
    intros y; rewrite Hin', Hin, in_app_iff; tauto.
Qed.

Lemma add_meaning_synonyms_spec (acc : list str) (m : full_meaning) :
  NoDup acc ->
  NoDup (add_meaning_synonyms acc m) /\
  (forall y, In y (add_meaning_synonyms acc m) <-> In y acc \/ In y (meaning_synonyms m)).
Proof.
  intros Hacc; unfold add_meaning_synonyms, meaning_synonyms.
  destruct (add_synonyms_spec acc (fm_synonyms m) Hacc) as [Hnd Hin].
  destruct (fm_definitions m) as [ds|]; simpl.
  - destruct (fold_definitions_spec ds _ Hnd) as [Hnd' Hin']; split; auto.
    intros y; rewrite Hin', Hin, in_app_iff; tauto.
  - split; auto; intros y; rewrite Hin, app_nil_r; tauto.
Qed.

Lemma fold_meanings_spec (ms : list full_meaning) : forall acc,
  NoDup acc ->
  NoDup (fold_left add_meaning_synonyms ms acc) /\
  (forall y, In y (fold_left add_meaning_synonyms ms acc) <->
             In y acc \/ exists m, In m ms /\ In y (meaning_synonyms m)).
Proof.
  induction ms as [|m ms IH]; intros acc Hacc; simpl.
  - split; auto; intros y; split; [tauto|]; intros [H|(m & [] & _)]; exact H.
  - destruct (add_meaning_synonyms_spec acc m Hacc) as [Hnd Hin].
    destruct (IH _ Hnd) as [Hnd' Hin']; split; auto.
    intros y; rewrite Hin', Hin; split.
    + intros [[H|H]|(m' & Hm' & H)]; auto; right; eauto.
    + intros [H|(m' & [<-|Hm'] & H)]; auto; right; eauto.
Qed.

(** A string whose trim is empty consists of white space only. *)
Lemma trim_start_nil (s : str) : trim_start s = [] -> Forall (fun c => is_ws c = true) s.
Proof.
  induction s as [|c s IH]; simpl; auto.
  destruct (is_ws c) eqn:Hc; [auto | discriminate].
Qed.

Lemma trim_start_cons (s t : str) (c : ascii) : trim_start s = c :: t -> is_ws c = false.
Proof.
  induction s as [|d s IH]; simpl; [discriminate|].
  destruct (is_ws d) eqn:Hd; auto; intros H; injection H as -> _; exact Hd.
Qed.

Lemma trim_nil (s : str) : trim s = [] -> Forall (fun c => is_ws c = true) s.
Proof.
  unfold trim; intros H.
  assert (H1 : trim_start (rev (trim_start s)) = []).
  { destruct (trim_start (rev (trim_start s))) eqn:E; auto.
    apply (f_equal (@length ascii)) in H; rewrite length_rev in H; discriminate. }
  apply trim_start_nil in H1.
  destruct (trim_start s) as [|c t] eqn:E.
  - apply trim_start_nil; exact E.
  - exfalso; apply trim_start_cons in E.
    rewrite Forall_forall in H1.
    rewrite (H1 c) in E; [discriminate|].
    apply (proj1 (in_rev _ _)); left; reflexivity.
Qed.

Lemma starts_with_In (p s : str) (c : ascii) :
  starts_with p s = true -> In c p -> In c s.
Proof.
  intros H Hc; apply starts_with_app in H as [t ->]; apply in_or_app; auto.
Qed.

Lemma includes_In (p s : str) (c : ascii) : includes p s = true -> In c p -> In c s.
Proof.
  induction s as [|d s IH]; simpl; intros H Hc.
  - destruct p; [destruct Hc | discriminate].
  - apply orb_true_iff in H as [H|H].
    + exact (starts_with_In _ _ _ H Hc).
    + right; auto.
Qed.

(** An audio URL containing "-us" or "/us/" is not blank. *)
Lemma us_audio_not_blank (a : str) :
  includes (js "-us") a || includes (js "/us/") a = true -> trim a <> [].
Proof.
  intros H Ht; apply trim_nil in Ht; rewrite Forall_forall in Ht.
  assert (Hu : In "u"%char a).
  { apply orb_true_iff in H as [H|H]; eapply includes_In; eauto; simpl; auto. }
  specialize (Ht _ Hu); discriminate.
Qed.

Lemma truthy_str_some (o : option str) (a : str) :
  truthy_str o = Some a -> o = Some a /\ a <> [].
Proof.
  destruct o as [s|]; simpl; [|discriminate].
  destruct s; simpl; intros H; [discriminate|injection H as <-; split; [reflexivity|discriminate]].
Qed.

Lemma find_first {A : Type} (f : A -> bool) (l : list A) (x : A) :
  find f l = Some x ->
  exists l1 l2, l = l1 ++ x :: l2 /\ f x = true /\ Forall (fun y => f y = false) l1.
Proof.
  induction l as [|y l IH]; simpl; [discriminate|].
  destruct (f y) eqn:Hy.
  - intros H; injection H as ->; exists [], l; auto.
  - intros H; destruct (IH H) as (l1 & l2 & -> & Hx & Hl1).
    exists (y :: l1), l2; repeat split; auto.
Qed.

Lemma find_none_iff {A : Type} (f : A -> bool) (l : list A) :
  find f l = None <-> forall x, In x l -> f x = false.
Proof.
  split; [apply find_none|].
  induction l as [|y l IH]; simpl; intros H; auto.
  rewrite (H y (or_introl eq_refl)); apply IH; auto.
Qed.

Lemma has_audio_false (p : phonetic_json) :
  has_audio p = false <-> forall a, ph_audio p = Some a -> trim a = [].
Proof.
  unfold has_audio, truthy_str.
  destruct (ph_audio p) as [[|c a]|]; simpl; split; intros H.
  - intros b Hb; injection Hb as <-; reflexivity.
  - reflexivity.
  - intros b Hb; injection Hb as <-.
    destruct (trim (c :: a)); [reflexivity | discriminate].
  - rewrite (H _ eq_refl); reflexivity.
  - intros b Hb; discriminate.
  - reflexivity.
Qed.

Lemma is_us_audio_blank (p : phonetic_json) :
  has_audio p = false -> is_us_audio p = false.
Proof.
  unfold is_us_audio; intros H.
  destruct (truthy_str (ph_audio p)) as [a|] eqn:E; auto.
  apply truthy_str_some in E as [E _].
  destruct (includes (js "-us") a || includes (js "/us/") a) eqn:Hu; auto.
  exfalso; apply (us_audio_not_blank a Hu).
  exact (proj1 (has_audio_false p) H a E).
Qed.

(** ** Properties of the entry helpers *)

(** [getAllSynonyms] lists each synonym once, and exactly the synonyms
    given at meaning level or at definition level by some meaning of the
    entry. *)
Theorem getAllSynonyms_spec (entry : full_entry) :
  NoDup (getAllSynonyms entry) /\
  (forall s, In s (getAllSynonyms entry) <->
     exists m, In m (opt_list (fe_meanings entry)) /\
       (In s (opt_list (fm_synonyms m)) \/
        exists d, In d (opt_list (fm_definitions m)) /\ In s (opt_list (def_synonyms d)))).
Proof.
  unfold getAllSynonyms.
  destruct (fe_meanings entry) as [ms|]; simpl.
  - destruct (fold_meanings_spec ms [] (NoDup_nil _)) as [Hnd Hin]; split; auto.
    intros s; rewrite Hin; split.
    + intros [[]|(m & Hm & H)]; exists m; split; auto.
      unfold meaning_synonyms in H; apply in_app_iff in H as [H|H]; auto.
      apply in_flat_map in H; right; exact H.
    + intros (m & Hm & H); right; exists m; split; auto.
      unfold meaning_synonyms; apply in_app_iff.
      destruct H as [H|H]; [left; exact H | right; apply in_flat_map; exact H].
  - split; [constructor|]; intros s; split; [intros []|intros (m & [] & _)].
Qed.

(** [getBestAudioUrl] only returns the audio URL of one of the given
    phonetics, never a blank one, and returns [null] exactly when the
    argument is missing or not an array, or every audio URL it lists is
    missing or blank. *)
Theorem getBestAudioUrl_result (phonetics : option (list phonetic_json)) :
  (forall a, getBestAudioUrl phonetics = Some a ->
     exists ps p, phonetics = Some ps /\ In p ps /\ ph_audio p = Some a /\ trim a <> []) /\
  (getBestAudioUrl phonetics = None <->
     forall ps, phonetics = Some ps -> forall p a, In p ps -> ph_audio p = Some a -> trim a = []).
Proof.
  assert (Hany : forall ps,
            (forall a, match find has_audio ps with
                       | Some p => truthy_str (ph_audio p) | None => None end = Some a ->
                       exists p, In p ps /\ ph_audio p = Some a /\ trim a <> [])).
  { intros ps a; destruct (find has_audio ps) as [p|] eqn:E; [|discriminate].
    intros Ha; apply find_some in E as [Hin Hp].
    apply truthy_str_some in Ha as [Ha _]; exists p; repeat split; auto.
    unfold has_audio in Hp; rewrite Ha in Hp.
    destruct a as [|c a]; [discriminate|].
    simpl in Hp; destruct (trim (c :: a)); [discriminate | intros; discriminate]. }
  destruct phonetics as [ps|]; simpl.
  2: { split; [discriminate|]; split; [intros _ ps Hps; discriminate | reflexivity]. }
  split.
  - intros a.
    destruct (find is_us_audio ps) as [u|] eqn:Eu.
    + destruct (truthy_str (ph_audio u)) as [b|] eqn:Eb.
      * intros Hb; injection Hb as <-.
        apply find_some in Eu as [Hin Hu].
        unfold is_us_audio in Hu; rewrite Eb in Hu.
        apply truthy_str_some in Eb as [Eb _].
        exists ps, u; repeat split; auto; apply us_audio_not_blank; exact Hu.
      * intros Ha; destruct (Hany ps a Ha) as (p & ?); exists ps, p; auto.
    + intros Ha; destruct (Hany ps a Ha) as (p & ?); exists ps, p; auto.
  - split.
    + intros Hnone qs Hqs p a Hp Ha; injection Hqs as <-.
      revert Hnone; unfold getBestAudioUrl; cbv beta iota zeta.
      destruct (find has_audio ps) as [q|] eqn:Eq.
      * apply find_some in Eq as [_ Hq]; unfold has_audio in Hq.
        destruct (truthy_str (ph_audio q)) as [b|] eqn:Eb; [|discriminate].
        destruct (find is_us_audio ps) as [u|];
          [destruct (truthy_str (ph_audio u)) | ]; intros H; discriminate H.
      * intros _; apply (proj1 (has_audio_false p)); auto.
        exact (proj1 (find_none_iff _ _) Eq p Hp).
    + intros Hall.
      assert (Hh : forall p, In p ps -> has_audio p = false).
      { intros p Hp; apply (proj2 (has_audio_false p)); intros a Ha.
        exact (Hall ps eq_refl p a Hp Ha). }
      rewrite (proj2 (find_none_iff is_us_audio ps)).
      * rewrite (proj2 (find_none_iff has_audio ps)); auto.
      * intros p Hp; apply is_us_audio_blank, Hh, Hp.
Qed.

(** When some phonetic has an audio URL containing "-us" or "/us/",
    [getBestAudioUrl] returns the first such URL. *)
Theorem getBestAudioUrl_prefers_us (ps : list phonetic_json) (p : phonetic_json)
    (Hin : In p ps) (Hus : is_us_audio p = true) :
  exists l1 u l2 a,
    ps = l1 ++ u :: l2 /\ Forall (fun q => is_us_audio q = false) l1 /\
    ph_audio u = Some a /\ (includes (js "-us") a || includes (js "/us/") a) = true /\
    getBestAudioUrl (Some ps) = Some a.
Proof.
  destruct (find is_us_audio ps) as [u|] eqn:Eu.
  - pose proof Eu as Eu'.
    apply find_first in Eu' as (l1 & l2 & Hps & Hu & Hl1).
    unfold is_us_audio in Hu.
    destruct (truthy_str (ph_audio u)) as [a|] eqn:Ea; [|discriminate].
    exists l1, u, l2, a; repeat split; auto.
    + apply truthy_str_some in Ea as [Ea _]; exact Ea.
    + simpl; rewrite Eu, Ea; reflexivity.
  - exfalso; rewrite (proj1 (find_none_iff _ _) Eu p Hin) in Hus; discriminate.
Qed.

(** [getPhoneticText] returns [entry.phonetic] when it is a non-empty
    string, and otherwise the first text of [entry.phonetics] that is not
    blank; it returns the empty string exactly when there is neither. *)
Theorem getPhoneticText_spec (entry : full_entry) :
  (forall p, fe_phonetic entry = Some p -> p <> [] -> getPhoneticText entry = p) /\
  (truthy_str (fe_phonetic entry) = None ->
   forall t, getPhoneticText entry = t -> t <> [] ->
   exists ps l1 q l2, fe_phonetics entry = Some ps /\ ps = l1 ++ q :: l2 /\
     ph_text q = Some t /\ trim t <> [] /\
     Forall (fun r => forall t', ph_text r = Some t' -> trim t' = []) l1) /\
  (getPhoneticText entry = [] <->
     (fe_phonetic entry = None \/ fe_phonetic entry = Some []) /\
     forall ps, fe_phonetics entry = Some ps ->
       forall q t, In q ps -> ph_text q = Some t -> trim t = []).
Proof.
  assert (Htext : forall q, has_text q = false <-> forall t, ph_text q = Some t -> trim t = []).
  { intros q; unfold has_text, truthy_str.
    destruct (ph_text q) as [[|c a]|]; simpl; split; intros H.
    - intros b Hb; injection Hb as <-; reflexivity.
    - reflexivity.
    - intros b Hb; injection Hb as <-; destruct (trim (c :: a)); [reflexivity | discriminate].
    - rewrite (H _ eq_refl); reflexivity.
    - intros b Hb; discriminate.
    - reflexivity. }
  assert (Hfound : forall ps q, find has_text ps = Some q ->
            exists t, ph_text q = Some t /\ t <> [] /\ trim t <> []).
  { intros ps q Hq; apply find_some in Hq as [_ Hq]; unfold has_text in Hq.
    destruct (truthy_str (ph_text q)) as [t|] eqn:Et; [|discriminate].
    apply truthy_str_some in Et as [Et Hne]; exists t; repeat split; auto.
    destruct (trim t); [discriminate | intros; discriminate]. }
  unfold getPhoneticText.
  split; [|split].
  - intros p Hp Hne; rewrite Hp; destruct p; [contradiction | reflexivity].
  - intros Hph t Ht Hne; rewrite Hph in Ht.
    destruct (fe_phonetics entry) as [ps|]; [|subst t; contradiction].
    destruct (find has_text ps) as [q|] eqn:Eq; [|subst t; contradiction].
    destruct (Hfound ps q Eq) as (t' & Ht' & _ & Htr).
    rewrite Ht' in Ht; subst t'.
    apply find_first in Eq as (l1 & l2 & Hps & _ & Hl1).
    exists ps, l1, q, l2; repeat split; auto.
    rewrite Forall_forall in Hl1 |- *; intros r Hr; apply Htext, Hl1, Hr.
  - destruct (fe_phonetic entry) as [[|c p]|] eqn:Eph; simpl.
    3, 1: split;
      [ intros H; split; auto; intros ps Hps q t Hq Ht;
        rewrite Hps in H;
        destruct (find has_text ps) as [r|] eqn:Er;
        [ destruct (Hfound ps r Er) as (t' & Ht' & Hne & _); rewrite Ht' in H; contradiction
        | exact (proj1 (Htext q) (proj1 (find_none_iff _ _) Er q Hq) t Ht) ]
      | intros [_ Hall]; destruct (fe_phonetics entry) as [ps|]; auto;
        rewrite (proj2 (find_none_iff has_text ps)); auto;
        intros q Hq; apply Htext; intros t Ht; exact (Hall ps eq_refl q t Hq Ht) ].
    split; [discriminate|]; intros [[H|H] _]; discriminate.
Qed.

(** ** Properties of the translation and lookup functions *)

Lemma fetchEnglishDefinitionFull_agrees (fp : full_provider) (word : str) :
  fetchEnglishDefinition (to_provider fp) word =
  match fetchEnglishDefinitionFull fp word with
  | Ok data => Ok (map to_dict_entry data)
  | Err e => Err e
  end.
Proof.
  unfold fetchEnglishDefinition, fetchEnglishDefinitionFull; simpl.
  destruct (full_dictionary_api fp (trim word)) as [|status [data|]]; simpl; auto;
    destruct (status =? 404)%Z; auto; destruct (negb (response_ok status)); auto.
Qed.

(** [fetchEnglishTranslation] succeeds only with the non-empty
    [translatedText] of a successful response; unlike
    [fetchEnglishDefinition] it reports an HTTP 404 as a network error, and
    it never reports [WORD_NOT_FOUND]. *)
Theorem fetchEnglishTranslation_outcomes (net : provider) (text : str) :
  (forall t, fetchEnglishTranslation net text = Ok t ->
     t <> [] /\ exists status data,
       translation_api net (trim text) zh_en = HttpResponse status (Some data) /\
       response_ok status = true /\ translatedText data = Some t) /\
  (forall body, translation_api net (trim text) zh_en = HttpResponse 404%Z body ->
     fetchEnglishTranslation net text = Err NETWORK_ERROR) /\
  fetchEnglishTranslation net text <> Err WORD_NOT_FOUND.
Proof.
  unfold fetchEnglishTranslation; split; [|split].
  - intros t.
    destruct (translation_api net (trim text) zh_en) as [|status [data|]]; try discriminate.
    + destruct (response_ok status) eqn:Hok; simpl; [|discriminate].
      destruct (truthy_str (translatedText data)) as [t'|] eqn:Et; [|discriminate].
      intros H; injection H as <-; apply truthy_str_some in Et as [Et Hne].
      split; auto; exists status, data; auto.
    + destruct (negb (response_ok status)); discriminate.
  - intros body ->; reflexivity.
  - destruct (translation_api net (trim text) zh_en) as [|status [data|]]; try discriminate;
      destruct (negb (response_ok status)); try discriminate.
    destruct (truthy_str (translatedText data)); discriminate.
Qed.

(** No function of the dictionary service ever reports [INVALID_URL]. *)
Theorem service_never_invalid_url (net : provider) (fp : full_provider) (s : str) :
  fetchEnglishDefinition net s <> Err INVALID_URL /\
  fetchChineseTranslation net s <> Err INVALID_URL /\
  fetchEnglishTranslation net s <> Err INVALID_URL /\
  lookupWord net s <> Err INVALID_URL /\
  lookupChineseWord fp s <> Err INVALID_URL.
Proof.
  assert (Hdef : forall n w, fetchEnglishDefinition n w <> Err INVALID_URL).
  { intros n w; unfold fetchEnglishDefinition.
    destruct (dictionary_api n (trim w)) as [|status [data|]]; try discriminate;
      destruct (status =? 404)%Z; try discriminate;
      destruct (negb (response_ok status)); discriminate. }
  assert (Hzh : forall n w, fetchChineseTranslation n w <> Err INVALID_URL).
  { intros n w; unfold fetchChineseTranslation.
    destruct (translation_api n (trim w) en_zh) as [|status [data|]]; try discriminate;
      destruct (negb (response_ok status)); try discriminate.
    destruct (translatedText data) as [p|]; [destruct (is_nil p)|]; discriminate. }
  assert (Hen : forall n w, fetchEnglishTranslation n w <> Err INVALID_URL).
  { intros n w; unfold fetchEnglishTranslation.
    destruct (translation_api n (trim w) zh_en) as [|status [data|]]; try discriminate;
      destruct (negb (response_ok status)); try discriminate.
    destruct (truthy_str (translatedText data)); discriminate. }
  repeat split; auto.
  - unfold lookupWord; cbv zeta.
    destruct (fetchEnglishDefinition net (trim s)) as [d|[]];
      destruct (fetchChineseTranslation net (trim s)) as [t|e] eqn:E;
      cbv beta iota; try discriminate;
      intros H; injection H as ->; exact (Hzh _ _ E).
  - unfold lookupChineseWord; cbv zeta.
    destruct (fetchEnglishTranslation (to_provider fp) (trim s)) as [t|e] eqn:E.
    + destruct (fetchEnglishDefinitionFull fp _) as [[|d ds]|e]; cbv beta iota;
        destruct (_ <? 5); discriminate.
    + intros H; injection H as ->; exact (Hen _ _ E).
Qed.

(** [lookupChineseWord] fails exactly when the English translation fetch
    fails, with the same error: a failed dictionary request for the main
    word never makes it fail. *)
Theorem lookupChineseWord_errors (fp : full_provider) (chineseText : str) (e : dict_error) :
  lookupChineseWord fp chineseText = Err e <->
  fetchEnglishTranslation (to_provider fp) (trim chineseText) = Err e.
Proof.
  unfold lookupChineseWord; cbv zeta.
  destruct (fetchEnglishTranslation (to_provider fp) (trim chineseText)) as [t|e'].
  - split; [|discriminate].
    destruct (fetchEnglishDefinitionFull fp _) as [[|d ds]|e'']; cbv beta iota;
      destruct (_ <? 5); discriminate.
  - split; intros H; injection H as ->; reflexivity.
Qed.

Lemma split_ws_aux_forall (Q : ascii -> Prop) : forall s cur b,
  (forall c, In c s -> is_ws c = false -> Q c) -> Forall Q cur ->
  Forall (Forall Q) (split_ws_aux s cur b).
Proof.
  induction s as [|c s IH]; intros cur b Hs Hcur; simpl.
  - constructor; [apply Forall_rev; exact Hcur | constructor].
  - assert (Hs' : forall d, In d s -> is_ws d = false -> Q d) by (intros d Hd; apply Hs; right; exact Hd).
    destruct (is_ws c) eqn:Hc.
    + destruct b.
      * apply IH; auto.
      * constructor; [apply Forall_rev; exact Hcur | apply IH; auto].
    + apply IH; auto; constructor; auto; apply Hs; [left; reflexivity | exact Hc].
Qed.

Lemma translation_words_shape (t : str) :
  Forall (fun w => 2 < length w /\ Forall (fun c => is_word_char c = true) w)
    (filter (fun w => 2 <? length w) (split_ws (strip_non_word (toLowerCase t)))).
Proof.
  assert (H : Forall (Forall (fun c => is_word_char c = true))
                (split_ws (strip_non_word (toLowerCase t)))).
  { apply split_ws_aux_forall; [|constructor].
    intros c Hc Hws; unfold strip_non_word in Hc; apply filter_In in Hc as [_ Hc].
    rewrite Hws, orb_false_r in Hc; exact Hc. }
  rewrite Forall_forall in H |- *; intros w Hw.
  apply filter_In in Hw as [Hw Hlen]; apply Nat.ltb_lt in Hlen; auto.
Qed.

(** A successful [lookupChineseWord] keeps the trimmed input and the
    English translation; its translation words are longer than 2
    characters and made of word characters only; it offers at most 10
    alternatives, each a synonym from the first dictionary entry of the
    main word or one of the translation words after the first. *)
Theorem lookupChineseWord_result (fp : full_provider) (chineseText : str) (r : chinese_result)
    (H : lookupChineseWord fp chineseText = Ok r) :
  chineseWord r = trim chineseText /\
  fetchEnglishTranslation (to_provider fp) (trim chineseText) = Ok (englishTranslation r) /\
  Forall (fun w => 2 < length w /\ Forall (fun c => is_word_char c = true) w)
    (translationWords r) /\
  length (cw_alternatives r) <= 10 /\
  (forall a, In a (cw_alternatives r) ->
     In a (tl (translationWords r)) \/
     exists e rest, definitions r = e :: rest /\ In a (getAllSynonyms e)).
Proof.
  unfold lookupChineseWord in H; cbv zeta in H.
  destruct (fetchEnglishTranslation (to_provider fp) (trim chineseText)) as [t|e]; [|discriminate].
  set (tw := filter (fun w => 2 <? length w) (split_ws (strip_non_word (toLowerCase t)))) in H.
  assert (Hshape := translation_words_shape t); fold tw in Hshape.
  assert (Hfin : forall (alts : list str) (defs : list full_entry),
            length alts <= 10 ->
            (forall a, In a alts -> exists e rest, defs = e :: rest /\ In a (getAllSynonyms e)) ->
            Ok (mk_chinese_result (trim chineseText) t tw defs
                  (if length alts <? 5
                   then firstn 10 (alts ++ filter (fun w => negb (mem w alts)) (tl tw))
                   else alts)) = Ok r ->
            chineseWord r = trim chineseText /\ Ok t = Ok (englishTranslation r) /\
            Forall (fun w => 2 < length w /\ Forall (fun c => is_word_char c = true) w)
              (translationWords r) /\
            length (cw_alternatives r) <= 10 /\
            (forall a, In a (cw_alternatives r) ->
               In a (tl (translationWords r)) \/
               exists e rest, definitions r = e :: rest /\ In a (getAllSynonyms e))).
  { intros alts defs Hlen Hsyn Hr.
    remember (if length alts <? 5
              then firstn 10 (alts ++ filter (fun w => negb (mem w alts)) (tl tw))
              else alts) as alts' eqn:Ea.
    injection Hr as <-;
    cbn [chineseWord englishTranslation translationWords definitions cw_alternatives].
    repeat split; auto.
    - subst alts'; destruct (length alts <? 5); auto; rewrite length_firstn; lia.
    - intros a Ha; subst alts'; destruct (length alts <? 5).
      + apply In_firstn_In, in_app_iff in Ha as [Ha|Ha]; [right; auto|].
        left; apply filter_In in Ha as [Ha _]; exact Ha.
      + right; auto. }
  destruct (fetchEnglishDefinitionFull fp _) as [[|d ds]|e]; cbv beta iota in H;
    apply Hfin in H; auto.
  all: try (intros a []); try (simpl; lia).
  - rewrite length_firstn; lia.
  - intros a Ha; exists d, ds; split; auto; apply In_firstn_In in Ha; exact Ha.
Qed.

(** A successful [lookupWord] returns the trimmed query, and marks it as
    a phrase exactly when it contains a space, or when it contains a
    hyphen and the dictionary reported it as not found. *)
Theorem lookupWord_isPhrase (net : provider) (word : str) (r : lookup_result)
    (Hr : lookupWord net word = Ok r) :
  lr_word r = trim word /\
  (isPhrase r = true <->
     includes (js " ") (trim word) = true \/
     (fetchEnglishDefinition net (trim word) = Err WORD_NOT_FOUND /\
      includes (js "-") (trim word) = true)).
Proof.
  unfold lookupWord in Hr; cbv zeta in Hr.
  remember (includes (js " ") (trim word)) as sp eqn:Esp.
  remember (includes (js "-") (trim word)) as hy eqn:Ehy.
  destruct (fetchChineseTranslation net (trim word)) as [t|e]; [|
    destruct (fetchEnglishDefinition net (trim word)) as [d|[]]; discriminate].
  destruct (fetchEnglishDefinition net (trim word)) as [d|[]]; cbv beta iota in Hr;
    injection Hr as <-; cbn [lr_word isPhrase]; split; auto;
    destruct sp; destruct hy; simpl; intuition congruence.
Qed.

(** ** Properties of the word family and of the word-root analyzer *)

Lemma NoDup_firstn_l {A : Type} (n : nat) (l : list A) : NoDup l -> NoDup (firstn n l).
Proof. intros H; rewrite <- (firstn_skipn n l) in H; exact (NoDup_app_remove_r _ _ H). Qed.



Lemma insert_by_order_perm (x : word_form) (l : list word_form) :
  Permutation (insert_by_order x l) (x :: l).
Proof.
  induction l as [|y l IH]; simpl; auto.
  destruct (wf_order x <? wf_order y); auto.
  rewrite IH; apply perm_swap.
Qed.

Lemma sort_by_order_perm (l : list word_form) : Permutation (sort_by_order l) l.
Proof.
  unfold sort_by_order.
  enough (H : forall acc, Permutation (fold_left (fun acc x => insert_by_order x acc) l acc)
                                      (l ++ acc))
    by (rewrite H, app_nil_r; reflexivity).
  induction l as [|x l IH]; intros acc; simpl; auto.
  rewrite IH, insert_by_order_perm; symmetry; apply Permutation_middle.
Qed.

Lemma filter_loop_nodup : forall results seenWords seenPOS forms,
  NoDup (map lower_word forms) -> (forall f, In f forms -> In (lower_word f) seenWords) ->
  NoDup (map lower_word (filter_loop results seenWords seenPOS forms)).
Proof.
  induction results as [|[r|] rs IH]; intros sw sp forms Hnd Hsw; simpl; auto.
  destruct (negb (mem (toLowerCase (wf_word r)) sw)) eqn:Hm; [|apply IH; auto].
  destruct (negb (mem (wf_partOfSpeech r) sp) || (length forms <? 4)); apply IH; auto.
  - rewrite map_app; apply NoDup_snoc; auto.
    intros Hin; apply in_map_iff in Hin as (f & Hf & Hfin).
    apply Hsw in Hfin; rewrite Hf in Hfin; apply mem_true in Hfin.
    apply negb_true_iff in Hm; change (lower_word r) with (toLowerCase (wf_word r)) in Hfin.
    congruence.
  - intros f Hf; apply in_app_iff in Hf as [Hf|[<-|[]]]; [right; auto | left; reflexivity].
Qed.

Lemma filter_loop_from : forall results seenWords seenPOS forms f,
  In f (filter_loop results seenWords seenPOS forms) -> In f forms \/ In (Some f) results.
Proof.
  induction results as [|[r|] rs IH]; intros sw sp forms f; simpl; auto.
  - destruct (negb (mem (toLowerCase (wf_word r)) sw));
      [destruct (negb (mem (wf_partOfSpeech r) sp) || (length forms <? 4))|];
      intros H; apply IH in H as [H|H]; auto.
    apply in_app_iff in H as [H|[<-|[]]]; auto.
  - intros H; apply IH in H as [H|H]; auto.
Qed.

(** The forms of [fetchWordFamily] have pairwise distinct words ignoring
    case, and each is what the verifier returned for one of the generated
    candidates of the lowercased, trimmed query. *)
Theorem fetchWordFamily_forms_verified (verify : verifier) (word : str) :
  NoDup (map (fun f => toLowerCase (wf_word f)) (forms (fetchWordFamily verify word))) /\
  (forall f, In f (forms (fetchWordFamily verify word)) ->
     exists c, In c (generatePotentialForms (toLowerCase (trim word))) /\
               verify c (toLowerCase (trim word)) = Some f).
Proof.
  unfold fetchWordFamily; cbv zeta.
  destruct (includes _ (toLowerCase (trim word))); cbn [forms].
  - split; [constructor | intros f []].
  - set (tw := toLowerCase (trim word)).
    set (results := map (fun form => verify form tw) (generatePotentialForms tw)).
    split.
    + rewrite <- firstn_map; apply NoDup_firstn_l.
      apply (Permutation_NoDup (Permutation_map _ (Permutation_sym (sort_by_order_perm _)))).
      apply (filter_loop_nodup results [tw] [] []); [constructor | intros f []].
    + intros f Hf; apply In_firstn_In, (proj1 (sort_by_order_In _ _)) in Hf.
      apply filter_loop_from in Hf as [[]|Hf].
      apply in_map_iff in Hf as (c & Hc & Hin); exists c; auto.
Qed.



(** ** Properties of the search box and of the search history *)

Lemma trim_start_In (s : str) (c : ascii) : In c (trim_start s) -> In c s.
Proof.
  induction s as [|d s IH]; simpl; auto.
  destruct (is_ws d); auto.
Qed.

Lemma trim_In (s : str) (c : ascii) : In c (trim s) -> In c s.
Proof.
  unfold trim; intros H.
  apply (proj2 (in_rev _ _)), trim_start_In, (proj2 (in_rev _ _)), trim_start_In in H; exact H.
Qed.

Lemma is_cjk_utf8_ascii (b1 b2 b3 : ascii) : nat_of_ascii b1 < 128 -> is_cjk_utf8 b1 b2 b3 = false.
Proof.
  intros Hb; unfold is_cjk_utf8.
  destruct (228 <=? nat_of_ascii b1) eqn:E; [apply Nat.leb_le in E; lia | reflexivity].
Qed.

Lemma isChinese_ascii (s : str) :
  forallb (fun c => nat_of_ascii c <? 128) s = true -> isChinese s = false.
Proof.
  induction s as [|b1 s IH]; intros H; [reflexivity|].
  simpl in H; apply andb_true_iff in H as [Hb H]; apply Nat.ltb_lt in Hb.
  destruct s as [|b2 [|b3 s']]; [reflexivity | reflexivity|].
  change (isChinese (b1 :: b2 :: b3 :: s'))
    with (is_cjk_utf8 b1 b2 b3 || isChinese (b2 :: b3 :: s')).
  rewrite (IH H), is_cjk_utf8_ascii by exact Hb; reflexivity.
Qed.

(** [handleSearch] does nothing on a blank query, and otherwise makes one
    lookup; the search history changes only when that lookup succeeds and
    displaying its result returns normally, and then by [addToHistory] of
    the trimmed query. *)
Theorem handleSearch_history (fp : full_provider) (display_ok : search_result -> bool)
    (input : str) (h : list str) :
  (fst (handleSearch fp display_ok input h) = None <-> trim input = []) /\
  snd (handleSearch fp display_ok input h) =
    match fst (handleSearch fp display_ok input h) with
    | Some (Ok s) => if display_ok s then addToHistory (trim input) h else h
    | _ => h
    end.
Proof.
  unfold handleSearch; cbv zeta.
  destruct (trim input) as [|c q] eqn:Eq.
  - simpl; split; [tauto | reflexivity].
  - destruct (isChinese (c :: q));
      [destruct (lookupChineseWord fp (c :: q)) as [r|e];
         [destruct (display_ok (ChineseResult r)) eqn:Ed|]
      | destruct (lookupWord (to_provider fp) (c :: q)) as [r|e];
         [destruct (display_ok (EnglishResult r)) eqn:Ed|]];
      simpl; rewrite ?Ed; (split; [split; intros Hc; discriminate Hc | reflexivity]).
Qed.

(** A non-blank query made only of ASCII characters is always looked up as
    an English word, never as Chinese. *)
Theorem handleSearch_ascii_english (fp : full_provider) (display_ok : search_result -> bool)
    (input : str) (h : list str)
    (Hascii : forallb (fun c => nat_of_ascii c <? 128) input = true)
    (Hne : trim input <> []) :
  fst (handleSearch fp display_ok input h) =
    Some (match lookupWord (to_provider fp) (trim input) with
          | Ok l => Ok (EnglishResult l)
          | Err e => Err e
          end).
Proof.
  assert (Hq : isChinese (trim input) = false).
  { apply isChinese_ascii, forallb_forall; intros c Hc.
    exact (proj1 (forallb_forall _ _) Hascii c (trim_In _ _ Hc)). }
  unfold handleSearch; cbv zeta; rewrite Hq.
  destruct (trim input) as [|c q] eqn:Eq; [contradiction|]; simpl.
  destruct (lookupWord (to_provider fp) (c :: q)); [destruct (display_ok _)|]; reflexivity.
Qed.

Lemma remove_first_In (x y : str) (l : list str) : In x (remove_first y l) -> In x l.
Proof.
  induction l as [|z l IH]; simpl; auto.
  destruct (str_eqb z y); simpl; intuition.
Qed.

Lemma remove_first_keeps (x y : str) (l : list str) : In x l -> x = y \/ In x (remove_first y l).
Proof.
  induction l as [|z l IH]; simpl; [tauto|].
  destruct (str_eqb z y) eqn:Ez.
  - apply str_eqb_true in Ez; subst z; intros [->|H]; auto.
  - intros [->|H]; simpl; auto; destruct (IH H); auto.
Qed.

Lemma remove_first_NoDup (y : str) (l : list str) :
  NoDup l -> NoDup (remove_first y l) /\ ~ In y (remove_first y l).
Proof.
  induction l as [|z l IH]; simpl; intros Hnd; [split; [constructor | tauto]|].
  inversion Hnd as [|? ? Hz Hl]; subst.
  destruct (str_eqb z y) eqn:Ez.
  - apply str_eqb_true in Ez; subst z; auto.
  - destruct (IH Hl) as [Hnd' Hy]; split.
    + constructor; auto; intros H; apply Hz, (remove_first_In _ y), H.
    + intros [->|H]; [rewrite (proj2 (str_eqb_true y y) eq_refl) in Ez; discriminate | auto].
Qed.

Lemma remove_first_self (y : str) (l : list str) : remove_first y (y :: l) = l.
Proof. simpl; rewrite (proj2 (str_eqb_true y y) eq_refl); reflexivity. Qed.

(** [addToHistory] puts the lowercased word first, keeps at most 20
    entries, adds nothing else, and keeps the history free of duplicates;
    below 20 entries it drops nothing else; adding the same word twice in
    a row changes nothing the second time. *)
Theorem addToHistory_spec (word : str) (h : list str) (Hnd : NoDup h) :
  hd_error (addToHistory word h) = Some (toLowerCase word) /\
  length (addToHistory word h) <= MAX_HISTORY_SIZE /\
  NoDup (addToHistory word h) /\
  (forall x, In x (addToHistory word h) -> x = toLowerCase word \/ In x h) /\
  (length h < MAX_HISTORY_SIZE -> forall x, In x h -> In x (addToHistory word h)) /\
  addToHistory word (addToHistory word h) = addToHistory word h.
Proof.
  set (lw := toLowerCase word).
  destruct (remove_first_NoDup lw h Hnd) as [Hnd' Hlw].
  assert (Hle : length (remove_first lw h) <= length h).
  { clear; induction h as [|z h IH]; simpl; [lia|].
    destruct (str_eqb z lw); simpl; lia. }
  assert (Hfull : NoDup (lw :: remove_first lw h)) by (constructor; auto).
  assert (Hform : addToHistory word h = firstn MAX_HISTORY_SIZE (lw :: remove_first lw h)).
  { unfold addToHistory; fold lw.
    destruct (MAX_HISTORY_SIZE <? length (lw :: remove_first lw h)) eqn:E; auto.
    apply Nat.ltb_ge in E; rewrite firstn_all2; auto. }
  repeat split.
  - rewrite Hform; reflexivity.
  - rewrite Hform, length_firstn; lia.
  - rewrite Hform; apply NoDup_firstn_l, Hfull.
  - intros x Hx; rewrite Hform in Hx; apply In_firstn_In in Hx as [<-|Hx]; auto.
    right; apply (remove_first_In _ lw), Hx.
  - intros Hlen x Hx; rewrite Hform, firstn_all2 by (simpl; unfold MAX_HISTORY_SIZE in *; lia).
    destruct (remove_first_keeps x lw h Hx) as [->|H]; [left | right]; auto.
  - rewrite Hform; unfold MAX_HISTORY_SIZE; rewrite firstn_cons.
    unfold addToHistory; fold lw; rewrite remove_first_self.
    destruct (_ <? _) eqn:E; [|reflexivity].
    apply Nat.ltb_lt in E; unfold MAX_HISTORY_SIZE in E; cbn [length] in E;
      rewrite length_firstn in E; lia.
Qed.

(** On a history without duplicates, [removeFromHistory] removes exactly
    the lowercased word and keeps the history free of duplicates; removing
    a word just added gives the history without that word, cut to 19
    entries. *)
Theorem removeFromHistory_spec (word : str) (h : list str) (Hnd : NoDup h) :
  NoDup (removeFromHistory word h) /\
  (forall x, In x (removeFromHistory word h) <-> In x h /\ x <> toLowerCase word) /\
  removeFromHistory word (addToHistory word h) =
    firstn (MAX_HISTORY_SIZE - 1) (removeFromHistory word h).
Proof.
  unfold removeFromHistory.
  set (lw := toLowerCase word).
  destruct (remove_first_NoDup lw h Hnd) as [Hnd' Hlw].
  repeat split.
  - exact Hnd'.
  - apply (remove_first_In _ lw), H.
  - intros ->; contradiction.
  - intros [Hx Hne]; destruct (remove_first_keeps x lw h Hx); [contradiction | assumption].
  - unfold addToHistory; fold lw.
    destruct (MAX_HISTORY_SIZE <? length (lw :: remove_first lw h)) eqn:E.
    + unfold MAX_HISTORY_SIZE; rewrite firstn_cons, remove_first_self; reflexivity.
    + rewrite remove_first_self; apply Nat.ltb_ge in E.
      rewrite firstn_all2; [reflexivity|].
      unfold MAX_HISTORY_SIZE in *; cbn [length] in E; lia.
Qed.

(** ** Properties of the audio player *)

Lemma step_player_notifies (p : player) (op : player_op) :
  onStateChange p = true -> last (notified p) (false, false) = (isPlaying p, isLoading p) ->
  onStateChange (step_player p op) = true /\
  last (notified (step_player p op)) (false, false) =
    (isPlaying (step_player p op), isLoading (step_player p op)).
Proof.
  destruct p as [a pl ld cb nt]; simpl; intros -> Hl.
  destruct op as [u| |u|[]];
    unfold step_player, toggle, play, stop, on_event, notifyStateChange, set_flags; simpl;
    try destruct (is_nil u); try destruct pl; simpl; rewrite ?last_last; auto.
Qed.

(** Once a state-change callback is set on a new player, the last state
    it was notified of is always the player's current [isPlaying] and
    [isLoading], whatever calls and media events follow. *)
Theorem player_notifications_track_state (ops : list player_op) :
  last (notified (run_player (setStateChangeCallback true new_player) ops)) (false, false) =
  (isPlaying (run_player (setStateChangeCallback true new_player) ops),
   isLoading (run_player (setStateChangeCallback true new_player) ops)).
Proof.
  unfold run_player.
  enough (H : forall p, onStateChange p = true ->
                last (notified p) (false, false) = (isPlaying p, isLoading p) ->
                last (notified (fold_left step_player ops p)) (false, false) =
                (isPlaying (fold_left step_player ops p), isLoading (fold_left step_player ops p)))
    by (apply H; reflexivity).
  induction ops as [|op ops IH]; intros p Hcb Hl; simpl; auto.
  destruct (step_player_notifies p op Hcb Hl); apply IH; auto.
Qed.

Lemma step_player_playing (p : player) (op : player_op) :
  isPlaying (step_player p op) = true -> isPlaying p = true \/ op = OpEvent PlayStarted.
Proof.
  destruct p as [a pl ld cb nt].
  destruct op as [u| |u|[]];
    unfold step_player, toggle, play, stop, on_event, notifyStateChange, set_flags; simpl;
    try destruct (is_nil u); try destruct pl; try destruct cb; simpl; auto.
Qed.

Lemma step_player_audio (p : player) (op : player_op) (u : str) :
  audio (step_player p op) = Some u -> audio p = Some u \/ op = OpPlay u \/ op = OpToggle u.
Proof.
  destruct p as [a pl ld cb nt].
  destruct op as [v| |v|[]];
    unfold step_player, toggle, play, stop, on_event, notifyStateChange, set_flags; simpl;
    try destruct (is_nil v); try destruct pl; try destruct cb; simpl; auto;
    intros H; try discriminate H; injection H as ->; auto.
Qed.

(** The player is only marked as playing after the [play] event of its
    audio element, and only holds the audio of a URL passed to [play] or
    [toggle]. *)
Theorem player_state_provenance (p : player) (ops : list player_op) :
  (isPlaying (run_player p ops) = true -> isPlaying p = true \/ In (OpEvent PlayStarted) ops) /\
  (forall u, audio (run_player p ops) = Some u ->
     audio p = Some u \/ In (OpPlay u) ops \/ In (OpToggle u) ops).
Proof.
  unfold run_player; revert p.
  induction ops as [|op ops IH]; intros p; simpl; [split; auto|].
  destruct (IH (step_player p op)) as [H1 H2]; split.
  - intros H; destruct (H1 H) as [H'|H']; auto.
    destruct (step_player_playing p op H') as [?| ->]; auto.
  - intros u H; destruct (H2 u H) as [H'|[H'|H']]; auto.
    destruct (step_player_audio p op u H') as [?|[->| ->]]; auto.
Qed.


(** ** Instances of the properties above *)

Lemma getBestAudioUrl_prefers_us_witness :
  In us_phonetic [uk_phonetic; us_phonetic] /\ is_us_audio us_phonetic = true /\
  exists a, getBestAudioUrl (Some [uk_phonetic; us_phonetic]) = Some a /\
            (includes (js "-us") a || includes (js "/us/") a) = true.
Proof.
  assert (Hin : In us_phonetic [uk_phonetic; us_phonetic]) by (simpl; auto).
  assert (Hus : is_us_audio us_phonetic = true) by (vm_compute; reflexivity).
  split; [exact Hin|]; split; [exact Hus|].
  destruct (getBestAudioUrl_prefers_us [uk_phonetic; us_phonetic] us_phonetic Hin Hus)
    as (l1 & u & l2 & a & _ & _ & _ & Ha & Hget).
  exists a; split; [exact Hget | exact Ha].
Defined.

Lemma lookupChineseWord_result_witness :
  match lookupChineseWord apple_provider (js "苹果") with
  | Ok r => chineseWord r = js "苹果" /\ length (cw_alternatives r) <= 10
  | Err _ => False
  end.
Proof.
  destruct (lookupChineseWord apple_provider (js "苹果")) as [r|e] eqn:E.
  - destruct (lookupChineseWord_result apple_provider (js "苹果") r E) as (H1 & _ & _ & H4 & _).
    split; [rewrite H1; vm_compute; reflexivity | exact H4].
  - vm_compute in E; discriminate E.
Defined.

Lemma lookupWord_isPhrase_witness :
  match lookupWord hi_hey_provider (js "well-known") with
  | Ok r => isPhrase r = true
  | Err _ => False
  end.
Proof.
  destruct (lookupWord hi_hey_provider (js "well-known")) as [r|e] eqn:E.
  - apply (proj2 (proj2 (lookupWord_isPhrase hi_hey_provider (js "well-known") r E))).
    right; split; vm_compute; reflexivity.
  - vm_compute in E; discriminate E.
Defined.

Lemma handleSearch_ascii_english_witness :
  fst (handleSearch apple_provider (fun _ => true) (js " Apple ") []) =
    Some (match lookupWord (to_provider apple_provider) (trim (js " Apple ")) with
          | Ok l => Ok (EnglishResult l)
          | Err e => Err e
          end).
Proof.
  apply handleSearch_ascii_english; [vm_compute; reflexivity|].
  intros H; vm_compute in H; discriminate H.
Defined.

Lemma addToHistory_spec_witness :
  NoDup [js "cat"; js "dog"] /\
  hd_error (addToHistory (js "Dog") [js "cat"; js "dog"]) = Some (toLowerCase (js "Dog")).
Proof.
  assert (Hnd : NoDup [js "cat"; js "dog"]).
  { vm_compute; repeat constructor; intros H; repeat destruct H as [H|H];
      try discriminate; contradiction. }
  split; [exact Hnd|].
  exact (proj1 (addToHistory_spec (js "Dog") [js "cat"; js "dog"] Hnd)).
Defined.

Lemma removeFromHistory_spec_witness :
  NoDup [js "cat"; js "dog"] /\
  ~ In (js "dog") (removeFromHistory (js "Dog") [js "cat"; js "dog"]).
Proof.
  assert (Hnd : NoDup [js "cat"; js "dog"]).
  { vm_compute; repeat constructor; intros H; repeat destruct H as [H|H];
      try discriminate; contradiction. }
  split; [exact Hnd|].
  intros H.
  apply (proj1 (proj1 (proj2 (removeFromHistory_spec (js "Dog") [js "cat"; js "dog"] Hnd)) _)) in H.
  destruct H as [_ H]; apply H; vm_compute; reflexivity.
Defined.

